(** * Typing defense game: the game loop of [TypingGame]

    A shallow embedding of the state transitions of the [TypingGame]
    component (word bank selection, spawning, per-frame motion and base
    collision, input matching, scoring, the session flags and the
    animation-frame scheduling), together with the properties the design
    document states about them.

    Conventions of the embedding.
    - Integer-valued JavaScript numbers ([score], [level], [lives],
      [clientHeight], timestamps) are [Z]; the positions and speeds, which
      the source computes with halves, are exact rationals [Q].  Rounding
      of binary64 arithmetic is outside the model.
    - Strings are [string]: sequences of the code units below 256
      (U+0000 to U+00FF).  On these, [toLowerCase] maps the letters A-Z
      and the capital letters U+00C0 to U+00DE (but the sign U+00D7) to
      their small forms, and [trim] strips the characters 9 to 13, the
      space and the no-break space U+00A0, as the host language does.
      Code units from 256 on are outside the model.
    - [Math.random()] and [Date.now()] are inputs of the transitions.
    - A [Set<string>] is a duplicate-free list in insertion order, which is
      the iteration order of a JavaScript [Set].
    - A [setGameState(prev => ...)] call is the updater applied to the
      pending state; the notifications ([toast]) an updater or a handler
      raises are returned next to the new state. *)

From Stdlib Require Import ZArith QArith Qround Qminmax List String Ascii Bool Lia Lqa.
Import ListNotations.

Local Open Scope string_scope.
Local Open Scope list_scope.
Local Open Scope Z_scope.

(** ** Host-language helpers used by the source *)

Module JS.

(** The small form of a character: A-Z, and the capital letters of
    U+00C0 to U+00DE, which is all of them but the multiplication sign
    U+00D7, are 32 below their small forms. *)
Definition lowerChar (c : ascii) : ascii :=
  let n := nat_of_ascii c in
  if (((65 <=? n) && (n <=? 90))
      || ((192 <=? n) && (n <=? 222) && negb (n =? 215)))%nat
  then ascii_of_nat (n + 32) else c.

(** [s.toLowerCase()] *)
Fixpoint toLowerCase (s : string) : string :=
  match s with
  | EmptyString => EmptyString
  | String c r => String (lowerChar c) (toLowerCase r)
  end.

(** White space removed by [trim]: TAB, LF, VT, FF, CR, SPACE and the
    no-break space U+00A0 (character 160). *)
Definition isSpace (c : ascii) : bool :=
  let n := nat_of_ascii c in
  (((9 <=? n) && (n <=? 13)) || (n =? 32) || (n =? 160))%nat.

Fixpoint trimStart (s : string) : string :=
  match s with
  | EmptyString => EmptyString
  | String c r => if isSpace c then trimStart r else s
  end.

(** [trimEnd] keeps a character when it is not white space or when
    something is left after it. *)
Fixpoint trimEnd (s : string) : string :=
  match s with
  | EmptyString => EmptyString
  | String c r =>
      match trimEnd r with
      | EmptyString => if isSpace c then EmptyString else String c EmptyString
      | r' => String c r'
      end
  end.

(** [s.trim()] *)
Definition trim (s : string) : string := trimEnd (trimStart s).

(** [s.startsWith(p)] *)
Definition startsWith (s p : string) : bool := String.prefix p s.

(** Truthiness of a string: non-empty. *)
Definition truthy (s : string) : bool :=
  match s with EmptyString => false | String _ _ => true end.

(** [arr[i]] for a numeric index: [undefined] outside the array. *)
Definition index {A : Type} (arr : list A) (i : Z) : option A :=
  if i <? 0 then None else nth_error arr (Z.to_nat i).

(** [arr[Math.floor(u * arr.length)]], [u] being the value drawn by
    [Math.random()]. *)
Definition randomElement {A : Type} (arr : list A) (u : Q) : option A :=
  index arr (Qfloor (u * inject_Z (Z.of_nat (List.length arr)))).

(** [x < y] and [x >= y] on numbers *)
Definition ltb (x y : Q) : bool := (Qnum x * QDen y <? Qnum y * QDen x)%Z.
Definition geb (x y : Q) : bool := Qle_bool y x.

End JS.

(** A [Set<string>], kept in insertion order. *)
Module StringSet.

Definition t := list string.

Definition empty : t := [].

Definition has (x : string) (s : t) : bool := existsb (String.eqb x) s.

(** [add] appends a new value and leaves the set alone when the value is
    already there. *)
Definition add (x : string) (s : t) : t := if has x s then s else s ++ [x].

Definition delete (x : string) (s : t) : t :=
  filter (fun y => negb (String.eqb y x)) s.

Definition size (s : t) : Z := Z.of_nat (List.length s).

(** [new Set(arr)] *)
Definition ofList (l : list string) : t := fold_left (fun s x => add x s) l empty.

(** [Array.from(s)[0]]: the value inserted first. *)
Definition first (s : t) : option string := hd_error s.

End StringSet.

(** ** Data model *)

Record Word := mkWord {
  id : string;
  text : string;
  x : Q;
  y : Q;
  speed : Q;
  matched : string
}.

Record GameState := mkGameState {
  isPlaying : bool;
  isGameOver : bool;
  score : Z;
  level : Z;
  lives : Z;
  words : list Word;
  currentInput : string
}.

(** The notifications raised through [toast.success] and [toast.error]. *)
Inductive ToastKind := success | error.

Inductive Message :=
| ReachedBase (wordText : string)   (* "<text>" reached the base! *)
| AllLivesLost                      (* All lives lost! Game Over! *)
| LevelUp (newLevel : Z)            (* Level <n>! Difficulty increased! *)
| PointsAwarded (points : Z)        (* +<points> points! *)
| WordNotFound                      (* Word not found! *)
| GameStarted.                      (* Game started! Type words to shoot them! *)

Definition Toast : Type := ToastKind * Message.

Definition WORD_LISTS : list (list string) :=
  [ ["cat"; "dog"; "run"; "jump"; "fast"; "slow"; "big"; "small"; "hot";
     "cold"; "red"; "blue"; "good"; "bad"; "new"; "old"; "yes"; "no"; "up";
     "down"; "in"; "out"; "on"; "off"; "top"; "end"; "man"; "boy"; "girl";
     "car"; "bus"; "sun"; "moon"; "day"; "year"; "way"; "may"; "say"; "play";
     "try"; "why"; "how"; "now"; "low"; "show"; "know"; "grow"; "flow";
     "blow"; "snow"];
    ["house"; "computer"; "keyboard"; "monitor"; "window"; "button";
     "screen"; "music"; "phone"; "table"; "chair"; "water"; "coffee";
     "orange"; "purple"; "yellow"; "green"; "black"; "white"; "brown";
     "happy"; "angry"; "tired"; "hungry"; "thirsty"; "sleepy"; "funny";
     "smart"; "brave"; "quick"; "quiet"; "loud"; "bright"; "dark"; "clean";
     "dirty"; "empty"; "full"; "open"; "close"; "start"; "finish"; "begin"];
    ["beautiful"; "dangerous"; "fantastic"; "incredible"; "mysterious";
     "wonderful"; "important"; "different"; "possible"; "terrible";
     "amazing"; "excellent"; "brilliant"; "creative"; "exciting";
     "fantastic"; "generous"; "hilarious"; "innovative"; "jealous";
     "knowledge"; "language"; "mountain"; "necessary"; "obvious";
     "peaceful"; "question"; "remember"; "sandwich"; "together"; "umbrella";
     "vacation"; "welcome"; "yesterday"; "zebra"];
    ["extraordinary"; "incomprehensible"; "responsibility";
     "characteristics"; "simultaneously"; "internationally";
     "representative"; "administration"; "communication"; "entertainment";
     "investigation"; "manufacturing"; "understanding"; "environmental";
     "revolutionary"; "technological"; "philosophical"; "psychological";
     "archaeological"; "astronomical"; "mathematical"; "geographical";
     "biographical"; "alphabetical"; "mechanical"; "electrical"; "chemical";
     "physical"; "musical"; "magical"] ].

(** ** Word bank: [getRandomWord] *)

(** What a call of [getRandomWord] produces: a word, [undefined] (an index
    outside the candidate array), or an uncaught [TypeError] (a method
    called on [undefined]). *)
Inductive Picked :=
| Selected (word : string)
| Undefined
| TypeError.

Definition ofIndexed (o : option string) : Picked :=
  match o with Some w => Selected w | None => Undefined end.

Section WordBank.

Variable level : Z.
Variable currentWords : list Word.
(** [recentlyUsedWords.current] when the call starts *)
Variable recent : StringSet.t.

Definition wordListOf : option (list string) :=
  JS.index WORD_LISTS (Z.min (level - 1) (Z.of_nat (List.length WORD_LISTS) - 1)).

Definition currentWordTexts : StringSet.t :=
  StringSet.ofList (map (fun w => JS.toLowerCase (text w)) currentWords).

Definition availableWords (wordList : list string) : list string :=
  filter (fun word =>
            negb (StringSet.has (JS.toLowerCase word) currentWordTexts)
            && negb (StringSet.has (JS.toLowerCase word) recent))
         wordList.

Definition freshAvailableWords (wordList : list string) : list string :=
  filter (fun word => negb (StringSet.has (JS.toLowerCase word) currentWordTexts))
         wordList.

(** Lines 78-83: record the selected word, evict the first entry of the
    set when it holds more than 20. *)
Definition remember (selectedWord : string) : StringSet.t :=
  let r := StringSet.add (JS.toLowerCase selectedWord) recent in
  if 20 <? StringSet.size r then
    match StringSet.first r with
    | Some firstWord => StringSet.delete firstWord r
    | None => r
    end
  else r.

(** The result and the value of [recentlyUsedWords.current] afterwards;
    [u] is the number drawn by [Math.random()]. *)
Definition getRandomWord (u : Q) : Picked * StringSet.t :=
  match wordListOf with
  | None => (TypeError, recent)
  | Some wordList =>
      let available := availableWords wordList in
      if (List.length available =? 0)%nat then
        (ofIndexed (JS.randomElement (freshAvailableWords wordList) u),
         StringSet.empty)
      else
        match JS.randomElement available u with
        | None => (TypeError, recent)
        | Some selectedWord => (Selected selectedWord, remember selectedWord)
        end
  end.

End WordBank.

(** ** Transitions of the game state *)

(** [gameAreaRef.current], when the play area is mounted: the two
    measures the source reads from it. *)
Record Area := mkArea {
  clientWidth : Z;
  clientHeight : Z
}.

(** The values drawn while one word is spawned: the identifier token
    ([Math.random().toString(36).substr(2, 9)]) and the two numbers drawn
    for the word selection and for the horizontal position. *)
Record Draw := mkDraw {
  drawId : string;
  drawWord : Q;
  drawX : Q
}.

Definition initialState : GameState :=
  mkGameState false false 0 1 3 [] "".

(** *** [spawnWord] *)

Definition newWord (gameWidth : Z) (d : Draw) (prev : GameState)
    (wordText : string) : Word :=
  mkWord (drawId d)
         wordText
         (drawX d * inject_Z (gameWidth - 100))%Q
         (-50)%Q
         (1 + inject_Z (level prev) * (1 # 2))%Q
         "".

(** The updater of [spawnWord], which also runs [getRandomWord] on the
    recently-used set.  The interface [Word] declares [text: string]; when
    [getRandomWord] yields no string (every word of the tier is on screen,
    or a [TypeError]) the result is outside this model ([None]);
    [getRandomWord_progress] and [frame_step_progress] below say when
    that cannot happen. *)
Definition spawnWordUpdate (area : Area) (d : Draw) (recent : StringSet.t)
    (prev : GameState) : option (GameState * StringSet.t) :=
  let gameWidth := clientWidth area in
  match getRandomWord (level prev) (words prev) recent (drawWord d) with
  | (Selected wordText, recent') =>
      Some (mkGameState (isPlaying prev) (isGameOver prev) (score prev)
                        (level prev) (lives prev)
                        (words prev ++ [newWord gameWidth d prev wordText])
                        (currentInput prev),
            recent')
  | _ => None
  end.

Definition spawnWord (area : option Area) (d : Draw) (recent : StringSet.t)
    (prev : GameState) : option (GameState * StringSet.t) :=
  match area with
  | None => Some (prev, recent)
  | Some ar => spawnWordUpdate ar d recent prev
  end.

(** *** [updateWords] *)

Definition advance (word : Word) : Word :=
  mkWord (id word) (text word) (x word) (y word + speed word)%Q (speed word)
         (matched word).

Definition atBase (baseThreshold : Z) (word : Word) : bool :=
  JS.geb (y word) (inject_Z baseThreshold).

Definition aboveBase (baseThreshold : Z) (word : Word) : bool :=
  JS.ltb (y word) (inject_Z baseThreshold).

Definition updateWords (area : option Area) (prev : GameState)
    : GameState * list Toast :=
  match area with
  | None => (prev, [])
  | Some ar =>
      let gameHeight := clientHeight ar in
      let baseThreshold := gameHeight - 100 in
      let updatedWords := map advance (words prev) in
      let wordsAtBase := filter (atBase baseThreshold) updatedWords in
      let arrivals := Z.of_nat (List.length wordsAtBase) in
      let newLives :=
        if 0 <? arrivals then Z.max 0 (lives prev - arrivals) else lives prev in
      let reached := map (fun word => (error, ReachedBase (text word))) wordsAtBase in
      if (0 <? arrivals) && (newLives <=? 0) then
        (mkGameState false true (score prev) (level prev) 0 []
                     (currentInput prev),
         reached ++ [(error, AllLivesLost)])
      else
        let activeWords := filter (aboveBase baseThreshold) updatedWords in
        (mkGameState (isPlaying prev) (isGameOver prev) (score prev)
                     (level prev) newLives activeWords (currentInput prev),
         reached)
  end.

(** *** [getSpawnRate] *)

Definition getSpawnRate (level : Z) : Q :=
  let baseRate := 2000%Q in
  let levelMultiplier := (1 - inject_Z (level - 1) * (2 # 10))%Q in
  Qmax (baseRate * levelMultiplier) 500.

(** *** [handleInputChange] *)

Definition highlight (value : string) (word : Word) : Word :=
  if JS.startsWith (JS.toLowerCase (text word)) (JS.toLowerCase value)
     && (0 <? Z.of_nat (String.length value))
  then mkWord (id word) (text word) (x word) (y word) (speed word) value
  else mkWord (id word) (text word) (x word) (y word) (speed word) "".

Definition handleInputChange (value : string) (prev : GameState) : GameState :=
  let newWords := map (highlight value) (words prev) in
  mkGameState (isPlaying prev) (isGameOver prev) (score prev) (level prev)
              (lives prev) newWords value.

(** The renderer draws a word as highlighted when [word.matched] is
    truthy. *)
Definition highlighted (word : Word) : bool := JS.truthy (matched word).

(** *** [handleKeyPress] *)

(** The handler reads [gameState], the state of the render it belongs to,
    and queues an updater that runs on the pending state [prev]. *)

Definition isTarget (gameState : GameState) (word : Word) : bool :=
  String.eqb (JS.toLowerCase (text word))
             (JS.trim (JS.toLowerCase (currentInput gameState))).

Definition targetWordOf (gameState : GameState) : option Word :=
  find (isTarget gameState) (words gameState).

Definition pointsFor (gameState : GameState) (targetWord : Word) : Z :=
  Z.of_nat (String.length (text targetWord)) * 10 * level gameState.

Definition hitUpdate (targetWord : Word) (points : Z) (prev : GameState)
    : GameState * list Toast :=
  let newScore := score prev + points in
  let newLevel := newScore / 1000 + 1 in
  (mkGameState (isPlaying prev) (isGameOver prev) newScore newLevel
               (lives prev)
               (filter (fun word => negb (String.eqb (id word) (id targetWord)))
                       (words prev))
               "",
   if level prev <? newLevel then [(success, LevelUp newLevel)] else []).

Definition missUpdate (prev : GameState) : GameState :=
  mkGameState (isPlaying prev) (isGameOver prev) (score prev) (level prev)
              (lives prev) (words prev) "".

Definition handleKeyPress (key : string) (gameState prev : GameState)
    : GameState * list Toast :=
  if String.eqb key "Enter" && JS.truthy (JS.trim (currentInput gameState)) then
    match targetWordOf gameState with
    | Some targetWord =>
        let points := pointsFor gameState targetWord in
        let '(next, raised) := hitUpdate targetWord points prev in
        (next, (success, PointsAwarded points) :: raised)
    | None => (missUpdate prev, [(error, WordNotFound)])
    end
  else (prev, []).

(** *** The states [resetGame] and [startGame] set *)

(** The updater of [resetGame]. *)
Definition resetGameUpdate (prev : GameState) : GameState :=
  mkGameState false false (score prev) (level prev) (lives prev) [] "".

(** The object [startGame] passes to [setGameState]. *)
Definition startedState : GameState :=
  mkGameState true false 0 1 3 [] "".

(** ** The component: refs, animation frames and events *)

(** What the callback [gameLoop] captures from the render that created
    it: [gameState.isPlaying] and [gameState.level] (its other
    dependencies never change). *)
Record Loop := mkLoop {
  loopIsPlaying : bool;
  loopLevel : Z
}.

(** The game state with the refs of the component and the browser's list
    of animation-frame callbacks. *)
Record App := mkApp {
  gameState : GameState;
  lastWordSpawnRef : Z;
  recentlyUsedWords : StringSet.t;
  gameLoopRef : option Z;            (* [useRef<number>()]: undefined at first *)
  frameCallbacks : list (Z * Loop);  (* handle and callback, oldest first *)
  nextHandle : Z                     (* handles are positive and increase *)
}.

Definition initialApp : App :=
  mkApp initialState 0 StringSet.empty None [] 1.

Definition withGameState (gs : GameState) (a : App) : App :=
  mkApp gs (lastWordSpawnRef a) (recentlyUsedWords a) (gameLoopRef a)
        (frameCallbacks a) (nextHandle a).

(** [gameLoopRef.current = requestAnimationFrame(gameLoop)] *)
Definition requestFrame (cb : Loop) (a : App) : App :=
  mkApp (gameState a) (lastWordSpawnRef a) (recentlyUsedWords a)
        (Some (nextHandle a))
        (frameCallbacks a ++ [(nextHandle a, cb)])
        (nextHandle a + 1).

(** [cancelAnimationFrame(handle)] *)
Definition cancelFrame (handle : Z) (a : App) : App :=
  mkApp (gameState a) (lastWordSpawnRef a) (recentlyUsedWords a)
        (gameLoopRef a)
        (filter (fun f => negb (fst f =? handle)) (frameCallbacks a))
        (nextHandle a).

(** The cleanup of the effect: cancel the frame [gameLoopRef] holds, if
    it holds one (a handle that is truthy). *)
Definition effectCleanup (a : App) : App :=
  match gameLoopRef a with
  | Some handle => if handle =? 0 then a else cancelFrame handle a
  | None => a
  end.

(** The body of the effect. *)
Definition effectBody (a : App) : App :=
  if isPlaying (gameState a)
  then requestFrame (mkLoop (isPlaying (gameState a)) (level (gameState a))) a
  else a.

(** The effect depends on [gameState.isPlaying] and on [gameLoop], which
    is created anew exactly when [isPlaying] or [level] changed. *)
Definition depsChanged (rendered next : GameState) : bool :=
  negb (Bool.eqb (isPlaying rendered) (isPlaying next))
  || negb (level rendered =? level next).

(** The render that follows an event: when the dependencies of the effect
    changed since the previous render, its cleanup runs and then its
    body. *)
Definition commit (rendered : GameState) (a : App) : App :=
  if depsChanged rendered (gameState a) then effectBody (effectCleanup a) else a.

(** *** [gameLoop] *)

Definition gameLoop (cb : Loop) (now : Z) (area : option Area) (d : Draw)
    (a : App) : option App :=
  let spawnRate := getSpawnRate (loopLevel cb) in
  let spawned :=
    if JS.ltb spawnRate (inject_Z (now - lastWordSpawnRef a)) then
      match spawnWord area d (recentlyUsedWords a) (gameState a) with
      | Some (gs, recent) =>
          Some (mkApp gs now recent (gameLoopRef a) (frameCallbacks a)
                      (nextHandle a))
      | None => None
      end
    else Some a in
  match spawned with
  | None => None
  | Some a1 =>
      let a2 := withGameState (fst (updateWords area (gameState a1))) a1 in
      Some (if loopIsPlaying cb then requestFrame cb a2 else a2)
  end.

(** *** [startGame] and [resetGame] *)

Definition startGame (now : Z) (a : App) : App * list Toast :=
  (mkApp startedState now (recentlyUsedWords a) (gameLoopRef a)
         (frameCallbacks a) (nextHandle a),
   [(success, GameStarted)]).

Definition resetGame (a : App) : App :=
  withGameState (resetGameUpdate (gameState a)) a.

(** *** Events *)

(** The events the component reacts to.  The handlers are taken as they
    are written; the page offers the buttons and the input field only in
    some phases, so the runs below include all the runs of the page.  An
    event is followed by the render of the new state before the next event
    is delivered, so a handler reads the state it updates. *)
Inductive Event :=
| AnimationFrame (now : Z) (area : option Area) (d : Draw)
| ClickStart (now : Z)
| ClickReset
| InputChange (value : string)
| KeyPress (key : string).

Definition handle (ev : Event) (a : App) : option App :=
  match ev with
  | AnimationFrame now area d =>
      (* the browser takes the oldest registered callback and calls it *)
      match frameCallbacks a with
      | [] => Some a
      | (_, cb) :: rest =>
          gameLoop cb now area d
                   (mkApp (gameState a) (lastWordSpawnRef a)
                          (recentlyUsedWords a) (gameLoopRef a) rest
                          (nextHandle a))
      end
  | ClickStart now => Some (fst (startGame now a))
  | ClickReset => Some (resetGame a)
  | InputChange value =>
      Some (withGameState (handleInputChange value (gameState a)) a)
  | KeyPress key =>
      Some (withGameState (fst (handleKeyPress key (gameState a) (gameState a))) a)
  end.

Definition step (ev : Event) (a : App) : option App :=
  match handle ev a with
  | Some a' => Some (commit (gameState a) a')
  | None => None
  end.

Fixpoint run (evs : list Event) (a : App) : option App :=
  match evs with
  | [] => Some a
  | ev :: rest =>
      match step ev a with
      | Some a' => run rest a'
      | None => None
      end
  end.

Inductive reachable : App -> Prop :=
| reachable_initial : reachable initialApp
| reachable_step : forall ev a a',
    reachable a -> step ev a = Some a' -> reachable a'.

(** The three phases of a session, as the two flags encode them. *)
Inductive Phase := Idle | Playing | GameOver.

Definition phaseOf (gs : GameState) : option Phase :=
  match isPlaying gs, isGameOver gs with
  | false, false => Some Idle
  | true, false => Some Playing
  | false, true => Some GameOver
  | true, true => None
  end.

(** ** Notions used in the statements *)

(** The lowercase texts of the words on screen. *)
Definition liveTexts (currentWords : list Word) : list string :=
  map (fun w => JS.toLowerCase (text w)) currentWords.

(** [value] is a prefix of [wordText], letter case apart. *)
Definition ciPrefix (value wordText : string) : Prop :=
  exists rest,
    JS.toLowerCase wordText = String.append (JS.toLowerCase value) rest.

(** The words of the examples. *)
Definition sample (ident wordText : string) (height : Q) : Word :=
  mkWord ident wordText 10 height (3 # 2) "".

(** No live word's text equals the trimmed input, letter case apart. *)
Definition noMatch (s : GameState) : Prop :=
  forall w, In w (words s) ->
            JS.toLowerCase (text w) <> JS.trim (JS.toLowerCase (currentInput s)).

(** The word reaches the base line with this tick. *)
Definition arrives (baseLine : Z) (word : Word) : bool :=
  Qle_bool (inject_Z baseLine) (y word + speed word).

(** An animation-frame event. *)
Definition isFrame (ev : Event) : Prop :=
  match ev with AnimationFrame _ _ _ => True | _ => False end.

(** At most one animation frame is requested at any time: the one whose
    handle [gameLoopRef] holds, requested for the rendered [gameLoop]
    while the game is played. *)
Definition pendingFor (gs : GameState) (a : App) : Prop :=
  frameCallbacks a = [] \/
  exists h, frameCallbacks a = [(h, mkLoop true (level gs))] /\
            gameLoopRef a = Some h /\ 0 < h /\ isPlaying gs = true.

Definition scheduled (a : App) : Prop :=
  0 < nextHandle a /\ pendingFor (gameState a) a.

(** What holds in every reachable state. *)
Record Invariant (a : App) : Prop := mkInvariant {
  inv_phase : phaseOf (gameState a) <> None;
  inv_lives : 0 <= lives (gameState a) <= 3;
  inv_alive : isPlaying (gameState a) = true -> 0 < lives (gameState a);
  inv_score : 0 <= score (gameState a);
  inv_level : 1 <= level (gameState a);
  inv_recent_nodup : NoDup (recentlyUsedWords a);
  inv_recent_size : (List.length (recentlyUsedWords a) <= 20)%nat;
  inv_scheduled : scheduled a
}.

(** ** Runs of the component used in the examples *)

(** The state after a list of events, from the initial state. *)
Definition played (evs : list Event) : App :=
  match run evs initialApp with
  | Some a => a
  | None => initialApp
  end.

Definition playArea : Area := mkArea 800 600.

(** A two-letter identifier for the word of frame [k], different for
    different frames below 676. *)
Definition token (k : nat) : string :=
  String (ascii_of_nat (97 + k / 26))
         (String (ascii_of_nat (97 + k mod 26)) EmptyString).

(** One frame every 2001 ms: every frame spawns a word, the first one the
    tier offers, and moves the words once. *)
Definition slowFrame (k : nat) : Event :=
  AnimationFrame (Z.of_nat k * 2001) (Some playArea)
                 (mkDraw (token k) 0 (1 # 2)).

Definition slowGame (n : nat) : list Event :=
  ClickStart 0 :: map slowFrame (seq 1 n).

(** Three slow frames, then one frame every 16 ms: the first three words
    reach the base line of the 600 pixel area at the frames 367, 368 and
    369. *)
Definition quickFrame (k : nat) : Event :=
  AnimationFrame (if (k <=? 3)%nat then Z.of_nat k * 2001
                  else 6003 + 16 * (Z.of_nat k - 3))
                 (Some playArea) (mkDraw (token k) 0 (1 # 2)).

Definition lostGame (n : nat) : list Event :=
  ClickStart 0 :: map quickFrame (seq 1 n).

(** ** The page: what is drawn and which controls are offered *)

(** [s.substring(start)] *)
Fixpoint substringFrom (start : nat) (s : string) : string :=
  match start, s with
  | O, _ => s
  | S k, EmptyString => EmptyString
  | S k, String _ r => substringFrom k r
  end.

(** The part of a word drawn after its highlighted prefix:
    [word.text.substring(word.matched.length)]. *)
Definition shownRest (word : Word) : string :=
  substringFrom (String.length (matched word)) (text word).

(** The controls the page renders.  The header button is there when
    [!isPlaying] and calls [resetGame] when [isGameOver], [startGame]
    otherwise; the button of the game-over screen calls [resetGame]; the
    input field is there when [isPlaying].  Animation frames do not
    depend on the page. *)
Definition offered (gs : GameState) (ev : Event) : bool :=
  match ev with
  | AnimationFrame _ _ _ => true
  | ClickStart _ => negb (isPlaying gs) && negb (isGameOver gs)
  | ClickReset => (negb (isPlaying gs) && isGameOver gs) || isGameOver gs
  | InputChange _ => isPlaying gs
  | KeyPress _ => isPlaying gs
  end.

(** ** Further notions used in the statements *)

(** All the words of the bank. *)
Definition bankWords : list string := List.concat WORD_LISTS.

(** A word as the component makes them: its text is from the bank, its
    highlight is a prefix of its text, letter case apart, and it falls by
    at least a pixel and a half per tick. *)
Definition wellFormedWord (word : Word) : Prop :=
  In (text word) bankWords /\
  ciPrefix (matched word) (text word) /\
  (3 # 2 <= speed word)%Q.

(** What holds of the game state and the animation loop in every
    reachable state, besides [Invariant]. *)
Record Shape (a : App) : Prop := mkShape {
  shape_words : Forall wellFormedWord (words (gameState a));
  shape_distinct : NoDup (liveTexts (words (gameState a)));
  shape_idle : isPlaying (gameState a) = false -> words (gameState a) = [];
  shape_over : isGameOver (gameState a) = true -> lives (gameState a) = 0;
  shape_level : level (gameState a) = score (gameState a) / 1000 + 1;
  shape_score : (10 | score (gameState a));
  shape_loop :
    isPlaying (gameState a) = true ->
    exists h, frameCallbacks a = [(h, mkLoop true (level (gameState a)))]
}.

(** The words that reach the base line when [updateWords] runs on
    [prev]. *)
Definition arrivals (area : Area) (prev : GameState) : list Word :=
  filter (arrives (clientHeight area - 100)) (words prev).

(** * Properties *)

(** ** The embedding on the scenarios of the design document *)

Example getRandomWord_first :
  getRandomWord 1 [] [] 0 = (Selected "cat", ["cat"]).
Proof. reflexivity. Qed.

Example host_helpers :
  JS.trim "  a b  " = "a b" /\ JS.trim "   " = "" /\
  JS.toLowerCase "Cat-Z@[" = "cat-z@[" /\
  JS.startsWith "cat" "ca" = true /\ JS.startsWith "cat" "" = true /\
  JS.startsWith "ca" "cat" = false.
Proof. repeat split. Qed.

(** The no-break space is trimmed like a space; of the characters from
    128 on only the capital letters change under [toLowerCase]. *)
Example host_helpers_latin1 :
  JS.trim (String (ascii_of_nat 160) ("cat" ++ String (ascii_of_nat 160) ""))%string
    = "cat" /\
  JS.trim (String (ascii_of_nat 160) "") = "" /\
  JS.trim (String (ascii_of_nat 133) "") = String (ascii_of_nat 133) "" /\
  map (fun n => nat_of_ascii (JS.lowerChar (ascii_of_nat n)))
      [191; 192; 214; 215; 216; 222; 223; 255]%nat
    = [191; 224; 246; 215; 248; 254; 223; 255]%nat.
Proof. repeat split. Qed.

(** "cat" followed by a no-break space hits the word "cat"; a no-break
    space alone is a blank input, and Enter is ignored. *)
Example scenario_no_break_space :
  let nbsp := String (ascii_of_nat 160) "" in
  let s := mkGameState true false 0 1 3 [sample "a1" "cat" 0]
                       ("cat" ++ nbsp)%string in
  let blank := mkGameState true false 0 1 3 [sample "a1" "cat" 0] nbsp in
  handleKeyPress "Enter" s s
    = (mkGameState true false 30 1 3 [] "", [(success, PointsAwarded 30)]) /\
  handleKeyPress "Enter" blank blank = (blank, []).
Proof. split; reflexivity. Qed.

(** Level 1 spawns every 2000 ms, level 2 every 1600 ms, and from level 5
    on the rate is 500 ms. *)
Example getSpawnRate_levels :
  (getSpawnRate 1 == 2000 /\ getSpawnRate 2 == 1600 /\
   getSpawnRate 5 == 500 /\ getSpawnRate 9 == 500)%Q.
Proof. repeat split. Qed.

(** Level 1, "cat" on screen, the input "c", then "ca", then "cat"
    confirmed: 30 points, level 1, no word left. *)
Example scenario_cat :
  let s0 := mkGameState true false 0 1 3 [sample "a1" "cat" 0] "" in
  let s1 := handleInputChange "c" s0 in
  let s2 := handleInputChange "ca" s1 in
  let s3 := handleInputChange "cat" s2 in
  map matched (words s1) = ["c"] /\ map matched (words s2) = ["ca"] /\
  handleKeyPress "Enter" s3 s3 =
    (mkGameState true false 30 1 3 [] "", [(success, PointsAwarded 30)]).
Proof. repeat split. Qed.

(** A score that reaches 1000 gives level 2. *)
Example scenario_level_two :
  let s := mkGameState true false 970 1 3 [sample "a1" "cat" 0] "cat" in
  handleKeyPress "Enter" s s =
    (mkGameState true false 1000 2 3 [] "",
     [(success, PointsAwarded 30); (success, LevelUp 2)]).
Proof. reflexivity. Qed.

(** Three words reach the base line in one tick: the game is over. *)
Example scenario_three_arrivals :
  let s := mkGameState true false 0 1 3
             [sample "a1" "cat" 499; sample "a2" "dog" 499;
              sample "a3" "run" 499; sample "a4" "big" 0] "" in
  updateWords (Some (mkArea 800 600)) s =
    (mkGameState false true 0 1 0 [] "",
     [(error, ReachedBase "cat"); (error, ReachedBase "dog");
      (error, ReachedBase "run"); (error, AllLivesLost)]).
Proof. reflexivity. Qed.

(** ** Facts about the host-language helpers *)

Lemma startsWith_iff (s p : string) :
  JS.startsWith s p = true <-> exists rest, s = String.append p rest.
Proof.
  unfold JS.startsWith. revert s.
  induction p as [|c p IH]; intros s; simpl.
  - destruct s; simpl; split; eauto.
  - destruct s as [|c' s]; simpl.
    + split; [discriminate | intros [rest H]; discriminate].
    + destruct (ascii_dec c c') as [->|Hne].
      * rewrite IH. split; intros [rest H]; exists rest; congruence.
      * split; [discriminate | intros [rest H]; congruence].
Qed.

Lemma truthy_iff (s : string) : JS.truthy s = true <-> s <> "".
Proof. destruct s; simpl; split; congruence. Qed.

Lemma length_pos_truthy (s : string) :
  (0 <? Z.of_nat (String.length s)) = JS.truthy s.
Proof. destruct s; simpl; [reflexivity | apply Z.ltb_lt; lia]. Qed.

Lemma ltb_iff (a b : Q) : JS.ltb a b = true <-> (a < b)%Q.
Proof. unfold JS.ltb, Qlt. apply Z.ltb_lt. Qed.

Lemma geb_iff (a b : Q) : JS.geb a b = true <-> (b <= a)%Q.
Proof. unfold JS.geb. apply Qle_bool_iff. Qed.

Lemma ltb_negb_geb (a b : Q) : JS.ltb a b = negb (JS.geb a b).
Proof.
  destruct (JS.geb a b) eqn:G; simpl.
  - apply geb_iff in G. destruct (JS.ltb a b) eqn:L; [|reflexivity].
    apply ltb_iff in L. exfalso. apply (Qlt_not_le _ _ L G).
  - apply ltb_iff. apply Qnot_le_lt. intros H. apply geb_iff in H. congruence.
Qed.

Lemma index_In {A : Type} (arr : list A) (i : Z) (v : A) :
  JS.index arr i = Some v -> In v arr.
Proof.
  unfold JS.index. destruct (i <? 0); [discriminate|]. apply nth_error_In.
Qed.

Lemma randomElement_In {A : Type} (arr : list A) (u : Q) (v : A) :
  JS.randomElement arr u = Some v -> In v arr.
Proof. apply index_In. Qed.

(** A number drawn in [0, 1) selects an element of a non-empty array. *)
Lemma randomElement_defined {A : Type} (arr : list A) (u : Q) :
  arr <> [] -> (0 <= u)%Q -> (u < 1)%Q ->
  exists v, JS.randomElement arr u = Some v.
Proof.
  intros Hne Hlo Hhi. unfold JS.randomElement, JS.index.
  set (n := Z.of_nat (List.length arr)).
  assert (Hn : 0 < n) by (subst n; destruct arr; [congruence | simpl; lia]).
  assert (HnQ : (inject_Z 0 < inject_Z n)%Q) by (rewrite <- Zlt_Qlt; exact Hn).
  assert (H0 : 0 <= Qfloor (u * inject_Z n)).
  { change 0 with (Qfloor 0). apply Qfloor_resp_le.
    apply Qmult_le_0_compat; [assumption | now apply Qlt_le_weak]. }
  assert (H1 : Qfloor (u * inject_Z n) < n).
  { rewrite Zlt_Qlt. eapply Qle_lt_trans; [apply Qfloor_le|].
    setoid_replace (inject_Z n) with (1 * inject_Z n)%Q at 2
      by (now rewrite Qmult_1_l).
    now apply Qmult_lt_compat_r. }
  destruct (Z.ltb_spec (Qfloor (u * inject_Z n)) 0); [lia|].
  destruct (nth_error arr (Z.to_nat (Qfloor (u * inject_Z n)))) as [v|] eqn:E;
    [eauto|].
  apply nth_error_None in E. subst n. lia.
Qed.

Module StringSetFacts.

Import StringSet.

Lemma has_iff (v : string) (s : t) : has v s = true <-> In v s.
Proof.
  unfold has. rewrite existsb_exists. split.
  - intros [w [Hin Heq]]. apply String.eqb_eq in Heq. now subst.
  - intros Hin. exists v. split; [assumption | apply String.eqb_refl].
Qed.

Lemma has_false_iff (v : string) (s : t) : has v s = false <-> ~ In v s.
Proof.
  rewrite <- has_iff. destruct (has v s); split; congruence.
Qed.

Lemma add_In (v w : string) (s : t) : In w (add v s) <-> w = v \/ In w s.
Proof.
  unfold add. destruct (has v s) eqn:H.
  - apply has_iff in H. split; [tauto | intros [->|]; assumption].
  - rewrite in_app_iff. simpl. split; intros; intuition congruence.
Qed.

Lemma add_NoDup (v : string) (s : t) : NoDup s -> NoDup (add v s).
Proof.
  intros Hs. unfold add. destruct (has v s) eqn:H; [assumption|].
  apply has_false_iff in H.
  apply NoDup_app; [assumption | repeat constructor; simpl; tauto |].
  intros w Hw [<-|[]]. contradiction.
Qed.

Lemma fold_add_In (l : list string) (s : t) (w : string) :
  In w (fold_left (fun acc v => add v acc) l s) <-> In w l \/ In w s.
Proof.
  revert s. induction l as [|v l IH]; intros s; simpl.
  - tauto.
  - rewrite IH, add_In. intuition congruence.
Qed.

Lemma ofList_In (l : list string) (w : string) : In w (ofList l) <-> In w l.
Proof. unfold ofList. rewrite fold_add_In. simpl. tauto. Qed.

Lemma delete_not_In (v : string) (s : t) : ~ In v s -> delete v s = s.
Proof.
  unfold delete. induction s as [|w s IH]; simpl; intros H; [reflexivity|].
  destruct (String.eqb_spec w v) as [->|Hne]; simpl.
  - exfalso. apply H. now left.
  - f_equal. apply IH. tauto.
Qed.

(** Deleting the first value of a duplicate-free set drops its head. *)
Lemma delete_head (v : string) (s : t) : NoDup (v :: s) -> delete v (v :: s) = s.
Proof.
  intros H. inversion H; subst. unfold delete. simpl.
  rewrite String.eqb_refl. simpl. now apply delete_not_In.
Qed.

Lemma delete_NoDup (v : string) (s : t) : NoDup s -> NoDup (delete v s).
Proof. apply NoDup_filter. Qed.

End StringSetFacts.

(** ** The word bank *)

Section WordBankFacts.

Import StringSet StringSetFacts.

Variable lvl : Z.
Variable currentWords : list Word.
Variable recent : StringSet.t.

Lemma currentWordTexts_In (v : string) :
  In v (currentWordTexts currentWords) <-> In v (liveTexts currentWords).
Proof. apply ofList_In. Qed.

Lemma availableWords_In (wordList : list string) (w : string) :
  In w (availableWords currentWords recent wordList) <->
  In w wordList /\ ~ In (JS.toLowerCase w) (liveTexts currentWords)
  /\ ~ In (JS.toLowerCase w) recent.
Proof.
  unfold availableWords. rewrite filter_In, andb_true_iff, !negb_true_iff,
    !has_false_iff, currentWordTexts_In. tauto.
Qed.

Lemma freshAvailableWords_In (wordList : list string) (w : string) :
  In w (freshAvailableWords currentWords wordList) <->
  In w wordList /\ ~ In (JS.toLowerCase w) (liveTexts currentWords).
Proof.
  unfold freshAvailableWords. rewrite filter_In, negb_true_iff,
    has_false_iff, currentWordTexts_In. tauto.
Qed.

(** The two ways [getRandomWord] returns a word: from the fresh
    candidates after the recently-used set was cleared, or from the
    available candidates, the word then being recorded. *)
Lemma getRandomWord_selected (u : Q) (w : string) (recent' : StringSet.t) :
  getRandomWord lvl currentWords recent u = (Selected w, recent') ->
  exists wordList, wordListOf lvl = Some wordList /\
    ((availableWords currentWords recent wordList = [] /\
      In w (freshAvailableWords currentWords wordList) /\
      recent' = StringSet.empty)
     \/
     (In w (availableWords currentWords recent wordList) /\
      recent' = remember recent w)).
Proof.
  unfold getRandomWord. destruct (wordListOf lvl) as [wordList|]; [|discriminate].
  intros H. exists wordList. split; [reflexivity|].
  destruct (availableWords currentWords recent wordList) as [|a l] eqn:Hav.
  - simpl in H. left. split; [reflexivity|].
    destruct (JS.randomElement _ u) as [v|] eqn:Hr; simpl in H; [|discriminate].
    inversion H; subst. split; [|reflexivity].
    now apply randomElement_In in Hr.
  - right. simpl List.length in H. simpl Nat.eqb in H. cbv iota in H.
    destruct (JS.randomElement (a :: l) u) as [v|] eqn:Hr; [|discriminate].
    inversion H; subst. split; [|reflexivity].
    now apply randomElement_In in Hr.
Qed.

(** Recording a word that is not in a duplicate-free set of at most 20
    entries: it goes to the end, and when the set was full its first
    entry leaves. *)
Lemma remember_fifo (w : string) :
  NoDup recent -> ~ In (JS.toLowerCase w) recent ->
  remember recent w =
    if (List.length recent <? 20)%nat
    then recent ++ [JS.toLowerCase w]
    else tl recent ++ [JS.toLowerCase w].
Proof.
  intros Hnd Hnew. unfold remember, add.
  apply has_false_iff in Hnew. rewrite Hnew. apply has_false_iff in Hnew.
  unfold size. rewrite length_app. simpl List.length.
  destruct (Nat.ltb_spec (List.length recent) 20) as [Hlt|Hge].
  - replace (20 <? Z.of_nat (List.length recent + 1)) with false;
      [reflexivity|]. symmetry. apply Z.ltb_ge. lia.
  - replace (20 <? Z.of_nat (List.length recent + 1)) with true
      by (symmetry; apply Z.ltb_lt; lia).
    destruct recent as [|oldest rest]; [simpl in Hge; lia|].
    simpl. rewrite !String.eqb_refl. simpl.
    inversion Hnd; subst. unfold delete in *.
    rewrite filter_app. fold (delete oldest rest).
    rewrite delete_not_In by assumption. simpl.
    destruct (String.eqb_spec (JS.toLowerCase w) oldest) as [E|_];
      [|reflexivity].
    exfalso. apply Hnew. now left.
Qed.

Lemma remember_NoDup (w : string) : NoDup recent -> NoDup (remember recent w).
Proof.
  intros H. unfold remember.
  destruct (20 <? _); [|now apply add_NoDup].
  destruct (first _); [apply delete_NoDup|]; now apply add_NoDup.
Qed.

Lemma getRandomWord_memory (u : Q) :
  NoDup recent -> (List.length recent <= 20)%nat ->
  let recent' := snd (getRandomWord lvl currentWords recent u) in
  NoDup recent' /\ (List.length recent' <= 20)%nat.
Proof.
  intros Hnd Hlen. unfold getRandomWord.
  destruct (wordListOf lvl) as [wordList|]; simpl; [|auto].
  destruct (List.length (availableWords currentWords recent wordList) =? 0)%nat;
    simpl.
  - split; [constructor | lia].
  - destruct (JS.randomElement _ u) as [v|] eqn:Hr; simpl; [|auto].
    apply randomElement_In, availableWords_In in Hr.
    destruct Hr as (_ & _ & Hnew).
    split; [now apply remember_NoDup|].
    rewrite remember_fifo by assumption.
    destruct (Nat.ltb_spec (List.length recent) 20).
    + rewrite length_app. simpl. lia.
    + destruct recent; simpl in *; [lia|]. rewrite length_app. simpl. lia.
Qed.

Lemma wordListOf_defined :
  1 <= lvl -> exists wordList, wordListOf lvl = Some wordList.
Proof.
  intros H. unfold wordListOf, JS.index.
  destruct (Z.ltb_spec (Z.min (lvl - 1) (Z.of_nat (List.length WORD_LISTS) - 1)) 0)
    as [Hneg|_]; [simpl in Hneg; lia|].
  destruct (nth_error WORD_LISTS _) as [wordList|] eqn:E; [eauto|].
  apply nth_error_None in E. simpl in E. lia.
Qed.

(** From level 1 on and with a number drawn in [0, 1), [getRandomWord]
    returns a word unless every word of the tier is on screen. *)
Lemma getRandomWord_progress (u : Q) (wordList : list string) :
  wordListOf lvl = Some wordList ->
  (0 <= u)%Q -> (u < 1)%Q ->
  freshAvailableWords currentWords wordList <> [] ->
  exists w recent', getRandomWord lvl currentWords recent u = (Selected w, recent').
Proof.
  intros Htier Hlo Hhi Hfresh. unfold getRandomWord. rewrite Htier.
  destruct (availableWords currentWords recent wordList) as [|v l] eqn:Hav.
  - simpl.
    destruct (randomElement_defined _ u Hfresh Hlo Hhi) as [w ->]. simpl. eauto.
  - simpl List.length. simpl Nat.eqb. cbv iota.
    destruct (randomElement_defined (v :: l) u ltac:(discriminate) Hlo Hhi)
      as [w ->].
    eauto.
Qed.

End WordBankFacts.

(** ** Effect of each transition on the fields of the state *)

Lemma spawnWord_fields area d recent prev gs recent' :
  spawnWord area d recent prev = Some (gs, recent') ->
  isPlaying gs = isPlaying prev /\ isGameOver gs = isGameOver prev /\
  score gs = score prev /\ level gs = level prev /\ lives gs = lives prev /\
  currentInput gs = currentInput prev /\
  recent' = match area with
            | Some _ => snd (getRandomWord (level prev) (words prev) recent
                                           (drawWord d))
            | None => recent
            end.
Proof.
  destruct area as [ar|]; simpl.
  - unfold spawnWordUpdate.
    destruct (getRandomWord _ _ _ _) as [[w| |] r]; try discriminate.
    intros H. inversion H; subst. simpl. tauto.
  - intros H. inversion H; subst. tauto.
Qed.

(** [updateWords] either ends the game or keeps the flags. *)
Lemma updateWords_fields area prev :
  let gs := fst (updateWords area prev) in
  score gs = score prev /\ level gs = level prev /\
  currentInput gs = currentInput prev /\
  ((isPlaying gs = false /\ isGameOver gs = true /\ lives gs = 0 /\ words gs = [])
   \/ (isPlaying gs = isPlaying prev /\ isGameOver gs = isGameOver prev)).
Proof.
  destruct area as [ar|]; simpl; [|tauto].
  destruct (_ && _); simpl; tauto.
Qed.

Lemma updateWords_lives area prev :
  0 <= lives prev ->
  0 <= lives (fst (updateWords area prev)) <= lives prev.
Proof.
  intros H. destruct area as [ar|]; simpl; [|lia].
  destruct (_ && _) eqn:E; simpl; [lia|].
  destruct (0 <? _) eqn:E0; [|lia]. apply Z.ltb_lt in E0. lia.
Qed.

(** While the game goes on, a life is left. *)
Lemma updateWords_lives_playing area prev :
  0 < lives prev ->
  isPlaying (fst (updateWords area prev)) = true ->
  0 < lives (fst (updateWords area prev)).
Proof.
  intros H. destruct area as [ar|]; simpl; [|lia].
  destruct (0 <? _) eqn:E0; simpl.
  - destruct (_ <=? 0) eqn:E1; simpl; [discriminate|].
    intros _. apply Z.leb_gt in E1. lia.
  - intros _. assumption.
Qed.

Lemma hitUpdate_fields targetWord points prev :
  let gs := fst (hitUpdate targetWord points prev) in
  isPlaying gs = isPlaying prev /\ isGameOver gs = isGameOver prev /\
  lives gs = lives prev /\ score gs = score prev + points /\
  level gs = (score prev + points) / 1000 + 1 /\ currentInput gs = "".
Proof. simpl. tauto. Qed.

Lemma handleKeyPress_flags key gameState prev :
  let gs := fst (handleKeyPress key gameState prev) in
  isPlaying gs = isPlaying prev /\ isGameOver gs = isGameOver prev /\
  lives gs = lives prev.
Proof.
  unfold handleKeyPress. destruct (_ && _); simpl; [|tauto].
  destruct (targetWordOf gameState); simpl; tauto.
Qed.

Lemma handleKeyPress_score key gs :
  0 <= score gs -> 1 <= level gs ->
  0 <= score (fst (handleKeyPress key gs gs)) /\
  1 <= level (fst (handleKeyPress key gs gs)).
Proof.
  intros Hs Hl. unfold handleKeyPress. destruct (_ && _); simpl; [|tauto].
  destruct (targetWordOf gs) as [w|]; simpl; [|tauto].
  assert (0 <= pointsFor gs w) by (unfold pointsFor; nia).
  split; [lia|].
  assert (0 <= (score gs + pointsFor gs w) / 1000)
    by (apply Z.div_pos; lia).
  lia.
Qed.

(** ** Rendering and the animation frames *)

Lemma commit_refs rendered a :
  gameState (commit rendered a) = gameState a /\
  lastWordSpawnRef (commit rendered a) = lastWordSpawnRef a /\
  recentlyUsedWords (commit rendered a) = recentlyUsedWords a.
Proof.
  unfold commit, effectBody, effectCleanup.
  destruct (depsChanged _ _); [|tauto].
  destruct (gameLoopRef a) as [h|]; [destruct (h =? 0)|]; simpl;
    destruct (isPlaying (gameState a)); simpl; tauto.
Qed.

Lemma depsChanged_same gs : depsChanged gs gs = false.
Proof.
  unfold depsChanged. rewrite Bool.eqb_reflx, Z.eqb_refl. reflexivity.
Qed.

Lemma depsChanged_false rendered next :
  depsChanged rendered next = false ->
  isPlaying next = isPlaying rendered /\ level next = level rendered.
Proof.
  unfold depsChanged. intros H. apply orb_false_elim in H as [H1 H2].
  apply negb_false_iff in H1, H2. apply Bool.eqb_prop in H1.
  apply Z.eqb_eq in H2. split; congruence.
Qed.

Lemma commit_scheduled rendered a :
  0 < nextHandle a -> pendingFor rendered a -> scheduled (commit rendered a).
Proof.
  intros Hn Hp. unfold commit.
  destruct (depsChanged rendered (gameState a)) eqn:Hd.
  - assert (Hc : frameCallbacks (effectCleanup a) = [] /\
                 nextHandle (effectCleanup a) = nextHandle a /\
                 gameState (effectCleanup a) = gameState a).
    { unfold effectCleanup. destruct Hp as [Hq | (h & Hq & Hr & Hh & _)].
      - destruct (gameLoopRef a) as [h|]; [destruct (h =? 0)|]; simpl;
          rewrite ?Hq; auto.
      - rewrite Hr. destruct (Z.eqb_spec h 0); [lia|]. simpl. rewrite Hq.
        simpl. rewrite Z.eqb_refl. auto. }
    destruct Hc as (Hq & Hn' & Hg). unfold effectBody. rewrite Hg.
    destruct (isPlaying (gameState a)) eqn:Hplay.
    + split; simpl; [lia|]. right. exists (nextHandle (effectCleanup a)).
      unfold requestFrame. cbn [frameCallbacks gameLoopRef gameState].
      rewrite Hq, Hg, Hn'. simpl. auto.
    + split; [lia|]. left. assumption.
  - apply depsChanged_false in Hd as [Hplay Hlvl]. split; [assumption|].
    destruct Hp as [Hq | (h & Hq & Hr & Hh & Hpl)]; [now left|].
    right. exists h. rewrite Hlvl, Hplay. auto.
Qed.

(** Without a requested frame, an animation frame changes nothing. *)
Lemma frame_without_callback now area d a :
  frameCallbacks a = [] -> step (AnimationFrame now area d) a = Some a.
Proof.
  intros H. unfold step. simpl. rewrite H. unfold commit.
  now rewrite depsChanged_same.
Qed.

Lemma frames_without_callback evs a :
  frameCallbacks a = [] -> Forall isFrame evs -> run evs a = Some a.
Proof.
  intros Hq. induction 1 as [|ev evs Hev _ IH]; [reflexivity|].
  destruct ev; try contradiction. simpl.
  now rewrite frame_without_callback.
Qed.

(** ** Invariants of the reachable states *)

Lemma gameLoop_inv cb now area d a a' :
  gameLoop cb now area d a = Some a' ->
  exists gs1 recent1 last1,
    ((spawnWord area d (recentlyUsedWords a) (gameState a) = Some (gs1, recent1))
     \/ (gs1 = gameState a /\ recent1 = recentlyUsedWords a)) /\
    let a2 := mkApp (fst (updateWords area gs1)) last1 recent1 (gameLoopRef a)
                    (frameCallbacks a) (nextHandle a) in
    a' = if loopIsPlaying cb then requestFrame cb a2 else a2.
Proof.
  unfold gameLoop.
  destruct (JS.ltb _ _).
  - destruct (spawnWord _ _ _ _) as [[gs1 recent1]|] eqn:Hs; [|discriminate].
    intros H. inversion H; subst. exists gs1, recent1, now.
    split; [now left | reflexivity].
  - intros H. inversion H; subst.
    exists (gameState a), (recentlyUsedWords a), (lastWordSpawnRef a).
    split; [now right | reflexivity].
Qed.

Lemma phaseOf_defined gs :
  phaseOf gs <> None <-> ~ (isPlaying gs = true /\ isGameOver gs = true).
Proof.
  unfold phaseOf. destruct (isPlaying gs), (isGameOver gs);
    split; intros H; try congruence; try (intros [? ?]; congruence).
  exfalso. apply H. auto.
Qed.

Lemma initial_invariant : Invariant initialApp.
Proof.
  constructor; simpl; try lia; try discriminate.
  - constructor.
  - split; [reflexivity | now left].
Qed.

(** The part of the invariant that the render does not touch. *)
Local Ltac after_commit :=
  repeat match goal with
  | |- context [gameState (commit ?r ?a)] =>
      rewrite (proj1 (commit_refs r a))
  | |- context [recentlyUsedWords (commit ?r ?a)] =>
      rewrite (proj2 (proj2 (commit_refs r a)))
  end.

Lemma frame_invariant now area d a a' :
  Invariant a -> step (AnimationFrame now area d) a = Some a' -> Invariant a'.
Proof.
  intros Inv. destruct (frameCallbacks a) as [|[h cb] rest] eqn:Hq.
  { rewrite frame_without_callback by assumption.
    intros H. inversion H; subst. assumption. }
  destruct Inv as [Hph Hlv Hal Hsc Hll Hnd Hsz [Hn Hp]].
  destruct Hp as [Hq' | (h' & Hq' & Hr & Hh & Hplay)]; [congruence|].
  rewrite Hq in Hq'. inversion Hq'; subst h' cb rest. clear Hq'.
  unfold step. simpl handle. rewrite Hq.
  destruct (gameLoop _ _ _ _ _) as [a2|] eqn:Hloop; [|discriminate].
  intros H. inversion H; subst a'. clear H.
  apply gameLoop_inv in Hloop. simpl in Hloop.
  destruct Hloop as (gs1 & recent1 & last1 & Hspawn & ->).
  assert (Hgs1 : isPlaying gs1 = true /\ isGameOver gs1 = isGameOver (gameState a)
                 /\ score gs1 = score (gameState a)
                 /\ level gs1 = level (gameState a)
                 /\ lives gs1 = lives (gameState a)).
  { destruct Hspawn as [Hs | [-> _]]; [|tauto].
    apply spawnWord_fields in Hs. intuition congruence. }
  assert (Hrec : NoDup recent1 /\ (List.length recent1 <= 20)%nat).
  { destruct Hspawn as [Hs | [_ ->]]; [|tauto].
    apply spawnWord_fields in Hs. destruct Hs as (_ & _ & _ & _ & _ & _ & ->).
    destruct area; [|tauto]. now apply getRandomWord_memory. }
  destruct Hgs1 as (Hp1 & Hg1 & Hs1 & Hl1 & Hv1).
  pose proof (updateWords_fields area gs1) as Hu. simpl in Hu.
  destruct Hu as (Hus & Hul & _ & Hflags).
  pose proof (updateWords_lives area gs1) as Hlives.
  pose proof (updateWords_lives_playing area gs1) as Halive.
  constructor; after_commit; unfold requestFrame; simpl.
  - apply phaseOf_defined. apply phaseOf_defined in Hph.
    destruct Hflags as [(-> & _) | (-> & ->)]; [intros [? ?]; discriminate|].
    rewrite Hp1, Hg1. rewrite Hplay in Hph. assumption.
  - lia.
  - intros Hpl. apply Halive; [rewrite Hv1; auto | assumption].
  - lia.
  - lia.
  - tauto.
  - tauto.
  - apply commit_scheduled; simpl; [lia|].
    right. exists (nextHandle a). auto.
Qed.

Lemma step_invariant ev a a' :
  Invariant a -> step ev a = Some a' -> Invariant a'.
Proof.
  destruct ev as [now area d | now | | value | key];
    [apply frame_invariant | | | |];
    intros [Hph Hlv Hal Hsc Hll Hnd Hsz [Hn Hp]] H;
    unfold step in H; simpl in H; inversion H; subst a'; clear H;
    (constructor; after_commit; simpl;
     [ | | | | | assumption | assumption | apply commit_scheduled; simpl; assumption ]);
    try discriminate; try lia; try assumption.
  (* what is left is about handleKeyPress *)
  - apply phaseOf_defined. apply phaseOf_defined in Hph.
    destruct (handleKeyPress_flags key (gameState a) (gameState a)) as (-> & -> & _).
    assumption.
  - destruct (handleKeyPress_flags key (gameState a) (gameState a)) as (_ & _ & ->).
    assumption.
  - destruct (handleKeyPress_flags key (gameState a) (gameState a)) as (-> & _ & ->).
    assumption.
  - now apply handleKeyPress_score.
  - now apply handleKeyPress_score.
Qed.

(** An animation frame yields a state as long as the tier of the level
    holds a word that is not on screen. *)
Lemma frame_step_progress now area d a :
  1 <= level (gameState a) ->
  (0 <= drawWord d)%Q -> (drawWord d < 1)%Q ->
  (forall wordList, wordListOf (level (gameState a)) = Some wordList ->
     freshAvailableWords (words (gameState a)) wordList <> []) ->
  exists a', step (AnimationFrame now area d) a = Some a'.
Proof.
  intros Hlvl Hlo Hhi Hfresh. unfold step. simpl handle.
  destruct (frameCallbacks a) as [|[h cb] rest]; [eauto|].
  unfold gameLoop. simpl.
  destruct (JS.ltb _ _); [|eauto].
  destruct area as [ar|]; simpl; [|eauto].
  unfold spawnWordUpdate.
  destruct (wordListOf_defined _ Hlvl) as [wordList Htier].
  destruct (getRandomWord_progress (level (gameState a)) (words (gameState a))
              (recentlyUsedWords a) (drawWord d) wordList Htier Hlo Hhi
              (Hfresh wordList Htier)) as (w & recent' & ->).
  eauto.
Qed.

Lemma reachable_invariant a : reachable a -> Invariant a.
Proof.
  induction 1 as [|ev a a' _ IH Hstep];
    [apply initial_invariant | eapply step_invariant; eassumption].
Qed.

Lemma run_reachable evs a a' :
  reachable a -> run evs a = Some a' -> reachable a'.
Proof.
  revert a. induction evs as [|ev evs IH]; intros a Ha; simpl.
  - intros H. inversion H; subst. assumption.
  - destruct (step ev a) as [a1|] eqn:Hs; [|discriminate].
    apply IH. eapply reachable_step; eassumption.
Qed.

(** ** Input matching *)

Lemma highlight_spec (value : string) (word : Word) :
  let word' := highlight value word in
  id word' = id word /\ text word' = text word /\ x word' = x word /\
  y word' = y word /\ speed word' = speed word /\
  (value <> "" /\ ciPrefix value (text word) -> matched word' = value) /\
  (~ (value <> "" /\ ciPrefix value (text word)) -> matched word' = "") /\
  (highlighted word' = true <-> value <> "" /\ ciPrefix value (text word)).
Proof.
  unfold highlight, highlighted, ciPrefix.
  rewrite length_pos_truthy.
  destruct (JS.startsWith _ _) eqn:Hp; destruct (JS.truthy value) eqn:Ht;
    simpl; repeat (split; [reflexivity|]);
    try rewrite Ht;
    (apply startsWith_iff in Hp ||
     (assert (Hn : ~ exists rest, JS.toLowerCase (text word)
                     = String.append (JS.toLowerCase value) rest)
        by (rewrite <- startsWith_iff; congruence)));
    (apply truthy_iff in Ht ||
     (assert (Hv : ~ value <> "") by (rewrite <- truthy_iff; congruence)));
    intuition (try congruence).
Qed.

(** C4. For every live word and every input text, [handleInputChange]
    keeps the word and sets its [matched] field to the input text when the
    text is non-empty and a case-insensitive prefix of the word's text,
    and to the empty string otherwise; so every word that satisfies the
    prefix condition, and no other, is drawn highlighted.  The input text
    becomes the current input. *)
Theorem handleInputChange_highlights (value : string) (prev : GameState) :
  let next := handleInputChange value prev in
  currentInput next = value /\
  Forall2
    (fun word word' =>
       id word' = id word /\ text word' = text word /\ x word' = x word /\
       y word' = y word /\ speed word' = speed word /\
       (value <> "" /\ ciPrefix value (text word) -> matched word' = value) /\
       (~ (value <> "" /\ ciPrefix value (text word)) -> matched word' = "") /\
       (highlighted word' = true <-> value <> "" /\ ciPrefix value (text word)))
    (words prev) (words next).
Proof.
  simpl. split; [reflexivity|].
  induction (words prev) as [|word rest IH]; simpl; constructor;
    [apply highlight_spec | assumption].
Qed.

Lemma handleInputChange_highlights_witness :
  let prev := mkGameState true false 0 1 3
                [sample "a1" "cat" 0; sample "a2" "Car" 5; sample "a3" "dog" 9]
                "" in
  map matched (words (handleInputChange "cA" prev)) = ["cA"; "cA"; ""] /\
  Forall2 (fun word word' => highlighted word' = true
                             <-> "cA" <> "" /\ ciPrefix "cA" (text word))
          (words prev) (words (handleInputChange "cA" prev)).
Proof.
  intros prev. split; [reflexivity|].
  pose proof (proj2 (handleInputChange_highlights "cA" prev)) as H.
  eapply Forall2_impl; [|exact H]. simpl. tauto.
Defined.

(** ** Confirmation: hit and miss *)

Lemma targetWordOf_Some (gs : GameState) (w : Word) :
  targetWordOf gs = Some w ->
  In w (words gs) /\
  JS.toLowerCase (text w) = JS.trim (JS.toLowerCase (currentInput gs)).
Proof.
  intros H. apply find_some in H as [Hin Heq].
  split; [assumption | now apply String.eqb_eq].
Qed.

Lemma targetWordOf_None (gs : GameState) :
  targetWordOf gs = None <->
  forall w, In w (words gs) ->
            JS.toLowerCase (text w) <> JS.trim (JS.toLowerCase (currentInput gs)).
Proof.
  unfold targetWordOf. split.
  - intros H w Hin. apply (find_none _ _ H) in Hin.
    unfold isTarget in Hin. now apply String.eqb_neq.
  - intros H. destruct (find _ _) as [w|] eqn:Hf; [|reflexivity].
    apply find_some in Hf as [Hin Heq]. apply String.eqb_eq in Heq.
    exfalso. exact (H w Hin Heq).
Qed.

(** A hit, for a handler that reads [gs] and an updater that runs on
    [prev]. *)
Lemma handleKeyPress_hit (gs prev : GameState) (w : Word) :
  JS.truthy (JS.trim (currentInput gs)) = true ->
  targetWordOf gs = Some w ->
  handleKeyPress "Enter" gs prev =
    (fst (hitUpdate w (pointsFor gs w) prev),
     (success, PointsAwarded (pointsFor gs w))
       :: snd (hitUpdate w (pointsFor gs w) prev)).
Proof.
  intros Ht Hw. unfold handleKeyPress. rewrite Ht, Hw. reflexivity.
Qed.

Lemma handleKeyPress_miss (gs prev : GameState) :
  JS.truthy (JS.trim (currentInput gs)) = true ->
  targetWordOf gs = None ->
  handleKeyPress "Enter" gs prev = (missUpdate prev, [(error, WordNotFound)]).
Proof.
  intros Ht Hw. unfold handleKeyPress. rewrite Ht, Hw. reflexivity.
Qed.

Lemma handleKeyPress_blank (key : string) (gs prev : GameState) :
  JS.truthy (JS.trim (currentInput gs)) = false ->
  handleKeyPress key gs prev = (prev, []).
Proof.
  intros Ht. unfold handleKeyPress. rewrite Ht, andb_false_r. reflexivity.
Qed.

(** C1. For every confirmed hit on a live word [w] (Enter is pressed and
    [w] is the first live word whose text equals the trimmed input, letter
    case apart), the points awarded are [length (text w) * 10 * level],
    the new score is the old score plus those points, the new level is
    [floor (newScore / 1000) + 1], and a level-up notification is raised
    exactly when the new level exceeds the old one. *)
Theorem hit_scoring (s : GameState) (w : Word) :
  JS.truthy (JS.trim (currentInput s)) = true ->
  targetWordOf s = Some w ->
  let points := Z.of_nat (String.length (text w)) * 10 * level s in
  let next := fst (handleKeyPress "Enter" s s) in
  let raised := snd (handleKeyPress "Enter" s s) in
  In w (words s) /\
  In (success, PointsAwarded points) raised /\
  (forall k p, In (k, PointsAwarded p) raised -> p = points) /\
  score next = score s + points /\
  level next = score next / 1000 + 1 /\
  1000 * (level next - 1) <= score next < 1000 * level next /\
  (In (success, LevelUp (level next)) raised <-> level s < level next) /\
  (forall k n, In (k, LevelUp n) raised -> level s < level next /\ n = level next).
Proof.
  intros Ht Hw. cbv zeta. rewrite (handleKeyPress_hit s s w Ht Hw).
  unfold pointsFor. simpl.
  set (points := Z.of_nat (String.length (text w)) * 10 * level s).
  set (newScore := score s + points).
  assert (Hfloor : 1000 * (newScore / 1000 + 1 - 1) <= newScore
                   < 1000 * (newScore / 1000 + 1)).
  { pose proof (Z.div_mod newScore 1000 ltac:(lia)).
    pose proof (Z.mod_pos_bound newScore 1000 ltac:(lia)). lia. }
  split; [exact (proj1 (targetWordOf_Some s w Hw))|].
  split; [now left|].
  assert (Hraised : forall t,
            In t (if level s <? newScore / 1000 + 1
                  then [(success, LevelUp (newScore / 1000 + 1))] else [])
            <-> level s < newScore / 1000 + 1
                /\ t = (success, LevelUp (newScore / 1000 + 1))).
  { intros t. destruct (Z.ltb_spec (level s) (newScore / 1000 + 1)); simpl.
    - intuition congruence.
    - intuition lia. }
  split.
  { intros k p [H|H]; [congruence|]. apply Hraised in H as [_ H]. discriminate. }
  split; [reflexivity|]. split; [reflexivity|]. split; [exact Hfloor|].
  split.
  - split.
    + intros [H|H]; [discriminate|]. now apply Hraised in H.
    + intros H. right. apply Hraised. now split.
  - intros k n [H|H]; [discriminate|]. apply Hraised in H as [Hlt H].
    split; [assumption | congruence].
Qed.

Lemma hit_scoring_witness :
  let s := mkGameState true false 980 1 3
             [sample "a1" "dog" 0; sample "a2" "cat" 5] " Cat " in
  targetWordOf s = Some (sample "a2" "cat" 5) /\
  score (fst (handleKeyPress "Enter" s s)) = 980 + 3 * 10 * 1 /\
  level (fst (handleKeyPress "Enter" s s)) = 2 /\
  In (success, LevelUp 2) (snd (handleKeyPress "Enter" s s)).
Proof.
  intros s.
  pose proof (hit_scoring s (sample "a2" "cat" 5) eq_refl eq_refl) as H.
  cbv zeta in H. destruct H as (_ & _ & _ & Hs & Hl & _ & Hup & _).
  split; [reflexivity|]. split; [exact Hs|]. split; [reflexivity|].
  apply Hup. reflexivity.
Defined.

(** C5, as stated, fails: Enter pressed on an input of three spaces, which
    equals no live word's text, raises no miss signal and leaves the
    input as it is. *)
Lemma blank_confirmation_counterexample :
  let s := mkGameState true false 0 1 3 [sample "a1" "cat" 0] "   " in
  ~ (noMatch s ->
     In (error, WordNotFound) (snd (handleKeyPress "Enter" s s)) /\
     currentInput (fst (handleKeyPress "Enter" s s)) = "").
Proof.
  intros s H.
  assert (Hno : noMatch s).
  { intros w [<-|[]]. discriminate. }
  destruct (H Hno) as [_ Hinput]. discriminate Hinput.
Qed.

(** C5, amended. For every confirmation whose input is not blank (not
    empty once trimmed): the input text is reset to empty, hit or miss;
    and when the trimmed input equals no live word's text, letter case
    apart, the only notification is the miss signal, raised as an error
    and not as a success, and nothing of the state changes but the input
    ([words], [score], [level], [lives] and the two flags are kept).  A
    confirmation whose input is blank is ignored: nothing is raised and
    the state, input included, is unchanged. *)
Theorem confirmation_miss (s : GameState) :
  (JS.truthy (JS.trim (currentInput s)) = true ->
   currentInput (fst (handleKeyPress "Enter" s s)) = "" /\
   (noMatch s ->
    snd (handleKeyPress "Enter" s s) = [(error, WordNotFound)] /\
    (forall m, ~ In (success, m) (snd (handleKeyPress "Enter" s s))) /\
    fst (handleKeyPress "Enter" s s) =
      mkGameState (isPlaying s) (isGameOver s) (score s) (level s) (lives s)
                  (words s) "")) /\
  (JS.truthy (JS.trim (currentInput s)) = false ->
   handleKeyPress "Enter" s s = (s, [])).
Proof.
  split.
  - intros Ht. split.
    + destruct (targetWordOf s) as [w|] eqn:Hw.
      * rewrite (handleKeyPress_hit s s w Ht Hw). reflexivity.
      * rewrite (handleKeyPress_miss s s Ht Hw). reflexivity.
    + intros Hno. apply targetWordOf_None in Hno.
      rewrite (handleKeyPress_miss s s Ht Hno). simpl.
      split; [reflexivity|]. split; [|reflexivity].
      intros m [H|[]]. discriminate.
  - apply handleKeyPress_blank.
Qed.

Lemma confirmation_miss_witness :
  let s := mkGameState true false 30 1 3 [sample "a1" "cat" 0] "xyz" in
  let blank := mkGameState true false 30 1 3 [sample "a1" "cat" 0] "   " in
  snd (handleKeyPress "Enter" s s) = [(error, WordNotFound)] /\
  fst (handleKeyPress "Enter" s s) =
    mkGameState true false 30 1 3 [sample "a1" "cat" 0] "" /\
  handleKeyPress "Enter" blank blank = (blank, []).
Proof.
  intros s blank.
  assert (Hno : noMatch s) by (intros w [<-|[]]; discriminate).
  destruct (proj1 (confirmation_miss s) eq_refl) as [_ H].
  destruct (H Hno) as (Hr & _ & Hs).
  split; [exact Hr|]. split; [exact Hs|].
  exact (proj2 (confirmation_miss blank) eq_refl).
Defined.

(** ** Motion and arrival at the base *)

Lemma atBase_advance baseLine word :
  atBase baseLine (advance word) = arrives baseLine word.
Proof. reflexivity. Qed.

Lemma aboveBase_advance baseLine word :
  aboveBase baseLine (advance word) = negb (arrives baseLine word).
Proof. unfold aboveBase. rewrite ltb_negb_geb. reflexivity. Qed.

Lemma filter_map_advance (p : Word -> bool) (q : Word -> bool) l :
  (forall w, p (advance w) = q w) ->
  filter p (map advance l) = map advance (filter q l).
Proof.
  intros H. induction l as [|w l IH]; simpl; [reflexivity|].
  rewrite H. destruct (q w); simpl; now rewrite IH.
Qed.

(** C3. On every tick with the play area measured (and with lives not
    negative, as in every reachable state): the words that stay are words
    of the previous state with [y] increased by exactly their [speed] and
    nothing else changed; no word whose updated [y] is at or beyond
    [clientHeight - 100] stays; [lives] becomes the old value minus the
    number of the words that arrived, not below 0; and unless this ends
    the game, every word that did not arrive stays. *)
Theorem updateWords_tick (area : Area) (prev : GameState) :
  0 <= lives prev ->
  let baseLine := clientHeight area - 100 in
  let arrived := filter (arrives baseLine) (words prev) in
  let next := fst (updateWords (Some area) prev) in
  lives next = Z.max 0 (lives prev - Z.of_nat (List.length arrived)) /\
  (forall word', In word' (words next) ->
     exists word, In word (words prev) /\
       word' = mkWord (id word) (text word) (x word) (y word + speed word)
                      (speed word) (matched word)) /\
  (forall word', In word' (words next) -> (y word' < inject_Z baseLine)%Q) /\
  (forall word, In word (words prev) ->
     (inject_Z baseLine <= y word + speed word)%Q ->
     ~ In (advance word) (words next)) /\
  (0 < lives next ->
     words next =
       map advance (filter (fun w => negb (arrives baseLine w)) (words prev))).
Proof.
  intros Hlives baseLine arrived next.
  assert (Hat : filter (atBase baseLine) (map advance (words prev))
                = map advance arrived)
    by (apply filter_map_advance, atBase_advance).
  assert (Hab : filter (aboveBase baseLine) (map advance (words prev))
                = map advance (filter (fun w => negb (arrives baseLine w))
                                      (words prev)))
    by (apply filter_map_advance, aboveBase_advance).
  assert (Hstay : forall word', In word' (words next) ->
            exists word, In word (words prev) /\ word' = advance word
                         /\ arrives baseLine word = false).
  { subst next. unfold updateWords. fold baseLine.
    destruct (_ && _); simpl; [contradiction|].
    rewrite Hab. intros word' Hin. apply in_map_iff in Hin as (word & <- & Hin).
    apply filter_In in Hin as [Hin Hno]. apply negb_true_iff in Hno. eauto. }
  assert (Hbelow : forall word', In word' (words next) ->
            (y word' < inject_Z baseLine)%Q).
  { intros word' Hin. destruct (Hstay word' Hin) as (word & _ & -> & Hno).
    apply Qnot_le_lt. intros Hle. apply Qle_bool_iff in Hle.
    unfold arrives in Hno. simpl in Hle. congruence. }
  split; [|split; [|split; [assumption|split]]].
  - subst next. unfold updateWords. fold baseLine. rewrite Hat, length_map.
    fold arrived.
    destruct (Z.ltb_spec 0 (Z.of_nat (List.length arrived))) as [Hpos|Hzero];
      simpl.
    + destruct (Z.leb_spec (Z.max 0 (lives prev - Z.of_nat (List.length arrived))) 0);
        simpl; lia.
    + lia.
  - intros word' Hin. destruct (Hstay word' Hin) as (word & Hw & -> & _).
    exists word. split; [assumption | reflexivity].
  - intros word Hin Hle Hstays. apply Hbelow in Hstays. simpl in Hstays.
    exact (Qlt_not_le _ _ Hstays Hle).
  - subst next. unfold updateWords. fold baseLine. rewrite Hat, length_map.
    fold arrived.
    destruct (_ && _); simpl; [lia|]. intros _. exact Hab.
Qed.

Lemma updateWords_tick_witness :
  let area := mkArea 800 600 in
  let prev := mkGameState true false 0 1 3
                [sample "a1" "cat" 499; sample "a2" "dog" 100;
                 sample "a3" "run" (997 # 2)] "" in
  lives (fst (updateWords (Some area) prev)) = 1 /\
  words (fst (updateWords (Some area) prev)) =
    [mkWord "a2" "dog" 10 (100 + (3 # 2)) (3 # 2) ""].
Proof.
  intros area prev.
  destruct (updateWords_tick area prev ltac:(simpl; lia)) as (Hl & _ & _ & _ & Hw).
  split; [exact Hl | apply Hw; reflexivity].
Defined.

(** ** Reaching the example states *)

Lemma played_reachable (evs : list Event) (a : App) :
  run evs initialApp = Some a -> reachable a.
Proof. apply run_reachable. constructor. Qed.

(** ** The end of a session *)

Lemma updateWords_ends_or_alive area prev :
  0 < lives prev ->
  let gs := fst (updateWords area prev) in
  (isPlaying gs = false /\ isGameOver gs = true /\ lives gs = 0 /\ words gs = [])
  \/ 0 < lives gs.
Proof.
  intros H. destruct area as [ar|]; simpl; [|now right].
  destruct (0 <? _) eqn:E0; simpl.
  - destruct (_ <=? 0) eqn:E1; simpl; [left; tauto|].
    right. apply Z.leb_gt in E1. assumption.
  - now right.
Qed.

Lemma frame_step_state now area d a a' :
  step (AnimationFrame now area d) a = Some a' ->
  a' = a \/
  exists gs1, gameState a' = fst (updateWords area gs1) /\
              lives gs1 = lives (gameState a).
Proof.
  destruct (frameCallbacks a) as [|[h cb] rest] eqn:Hq.
  { rewrite frame_without_callback by assumption.
    intros H. inversion H. now left. }
  unfold step. simpl handle. rewrite Hq.
  destruct (gameLoop _ _ _ _ _) as [a2|] eqn:Hloop; [|discriminate].
  intros H. inversion H; subst a'. clear H. right.
  apply gameLoop_inv in Hloop. simpl in Hloop.
  destruct Hloop as (gs1 & recent1 & last1 & Hspawn & ->).
  exists gs1. rewrite (proj1 (commit_refs _ _)). split.
  - destruct (loopIsPlaying cb); reflexivity.
  - destruct Hspawn as [Hs | [-> _]]; [|reflexivity].
    apply spawnWord_fields in Hs. tauto.
Qed.

(** C2. Whenever a tick brings [lives] to 0 (they were positive before
    the animation frame and are not after it), the session is in the
    GameOver phase after that same frame, with [lives] exactly 0 and no
    live word, no animation frame is requested any more, and the
    animation frames that follow leave the whole state as it is. *)
Theorem lives_exhausted_ends_session (a a' : App) now area d :
  reachable a ->
  step (AnimationFrame now area d) a = Some a' ->
  0 < lives (gameState a) ->
  lives (gameState a') <= 0 ->
  phaseOf (gameState a') = Some GameOver /\
  isPlaying (gameState a') = false /\ isGameOver (gameState a') = true /\
  lives (gameState a') = 0 /\
  words (gameState a') = [] /\
  frameCallbacks a' = [] /\
  (forall frames, Forall isFrame frames -> run frames a' = Some a').
Proof.
  intros Hreach Hstep Hpos Hzero.
  pose proof (step_invariant _ _ _ (reachable_invariant a Hreach) Hstep) as Inv'.
  destruct (frame_step_state _ _ _ _ _ Hstep) as [-> | (gs1 & Hgs & Hl1)];
    [lia|].
  rewrite <- Hl1 in Hpos.
  destruct (updateWords_ends_or_alive area gs1 Hpos) as [(Hp & Hg & Hl & Hw) | Halive];
    rewrite <- Hgs in *; [|lia].
  assert (Hq : frameCallbacks a' = []).
  { destruct (inv_scheduled a' Inv') as [_ [Hq | (h & _ & _ & _ & Hplay)]];
      [assumption | congruence]. }
  unfold phaseOf. rewrite Hp, Hg.
  repeat (split; [easy|]).
  intros frames Hframes. now apply frames_without_callback.
Qed.

Lemma lives_exhausted_ends_session_witness :
  let a := played (lostGame 368) in
  let a' := played (lostGame 369) in
  lives (gameState a) = 1 /\
  phaseOf (gameState a') = Some GameOver /\
  lives (gameState a') = 0 /\ words (gameState a') = [] /\
  run [quickFrame 370; quickFrame 371] a' = Some a'.
Proof.
  intros a a'.
  assert (Hrun : run (lostGame 368) initialApp = Some a)
    by (vm_compute; reflexivity).
  assert (Hstep : step (quickFrame 369) a = Some a')
    by (vm_compute; reflexivity).
  assert (Hone : lives (gameState a) = 1) by (vm_compute; reflexivity).
  assert (Hzero : lives (gameState a') = 0) by (vm_compute; reflexivity).
  destruct (lives_exhausted_ends_session a a' _ _ _
              (played_reachable _ _ Hrun) Hstep
              ltac:(rewrite Hone; lia) ltac:(rewrite Hzero; lia))
    as (Hphase & _ & _ & Hl & Hw & _ & Hframes).
  split; [exact Hone|]. split; [exact Hphase|]. split; [exact Hl|].
  split; [exact Hw|].
  apply Hframes. repeat constructor.
Defined.

(** ** Word selection *)

(** C6. For every level, every list of live words, every recently-used
    set and every random draw, a word that [getRandomWord] returns is
    never one whose lowercase form is among the lowercase texts of the
    live words; this holds in the path that follows the clearing of the
    recently-used set as well, whose candidates are filtered against the
    live words too. *)
Theorem getRandomWord_never_live lvl (currentWords : list Word) recent u w recent' :
  getRandomWord lvl currentWords recent u = (Selected w, recent') ->
  ~ In (JS.toLowerCase w) (liveTexts currentWords).
Proof.
  intros H. apply getRandomWord_selected in H.
  destruct H as (wordList & _ & [(_ & Hin & _) | (Hin & _)]).
  - apply freshAvailableWords_In in Hin. tauto.
  - apply availableWords_In in Hin. tauto.
Qed.

Lemma getRandomWord_never_live_witness :
  let live := [sample "a1" "cat" 0; sample "a2" "DOG" 5] in
  getRandomWord 1 live ["run"] 0 = (Selected "jump", ["run"; "jump"]) /\
  ~ In "jump" (liveTexts live).
Proof.
  intros live. split; [reflexivity|].
  exact (getRandomWord_never_live 1 live ["run"] 0 "jump" ["run"; "jump"] eq_refl).
Defined.

(** C7. In every reachable state the recently-used set holds at most 20
    entries; and a call of [getRandomWord] that selects a word among the
    available ones appends its lowercase form to the set when the set
    holds fewer than 20 entries, and otherwise, the insertion taking the
    set beyond 20, drops the entry that was inserted first and appends
    the new one. *)
Theorem recentlyUsed_bounded_fifo (a : App) :
  reachable a ->
  let recent := recentlyUsedWords a in
  (List.length recent <= 20)%nat /\
  forall lvl (currentWords : list Word) u wordList w,
    wordListOf lvl = Some wordList ->
    JS.randomElement (availableWords currentWords recent wordList) u = Some w ->
    getRandomWord lvl currentWords recent u =
      (Selected w,
       if (List.length recent <? 20)%nat
       then recent ++ [JS.toLowerCase w]
       else tl recent ++ [JS.toLowerCase w]).
Proof.
  intros Hreach recent. apply reachable_invariant in Hreach.
  split; [exact (inv_recent_size a Hreach)|].
  intros lvl currentWords u wordList w Htier Hsel.
  pose proof (randomElement_In _ _ _ Hsel) as Hin.
  unfold getRandomWord. rewrite Htier.
  destruct (availableWords currentWords recent wordList) as [|v l] eqn:Hav;
    [contradiction|].
  simpl List.length. simpl Nat.eqb. cbv iota. rewrite Hsel.
  f_equal. apply remember_fifo; [exact (inv_recent_nodup a Hreach)|].
  rewrite <- Hav in Hin. apply availableWords_In in Hin. tauto.
Qed.

Lemma recentlyUsed_bounded_fifo_witness :
  let a := played (slowGame 20) in
  List.length (recentlyUsedWords a) = 20%nat /\
  hd_error (recentlyUsedWords a) = Some "cat" /\
  getRandomWord 1 (words (gameState a)) (recentlyUsedWords a) 0 =
    (Selected "in",
     ["dog"; "run"; "jump"; "fast"; "slow"; "big"; "small"; "hot"; "cold";
      "red"; "blue"; "good"; "bad"; "new"; "old"; "yes"; "no"; "up"; "down";
      "in"]).
Proof.
  intros a.
  assert (Hrun : run (slowGame 20) initialApp = Some a)
    by (vm_compute; reflexivity).
  destruct (recentlyUsed_bounded_fifo a (played_reachable _ _ Hrun)) as [_ H].
  split; [vm_compute; reflexivity|]. split; [vm_compute; reflexivity|].
  assert (Htier : wordListOf 1 = Some (hd [] WORD_LISTS)) by reflexivity.
  rewrite (H 1 (words (gameState a)) 0%Q _ "in" Htier
             ltac:(vm_compute; reflexivity)).
  vm_compute. reflexivity.
Defined.

(** C8, the code at a failing input.  After a start, fifty frames that
    spawn the fifty words of the first tier, and the input "snow"
    confirmed with Enter, the next call of [getRandomWord] finds no
    available word, clears the recently-used set and returns "snow" from
    the fresh candidates: the returned word is not recorded, the set is
    empty after the call. *)
Theorem fallback_word_not_recorded :
  let a := played (slowGame 50 ++ [InputChange "snow"; KeyPress "Enter"]) in
  let a' := played (slowGame 50 ++ [InputChange "snow"; KeyPress "Enter";
                                    slowFrame 51]) in
  reachable a /\
  In "snow" (recentlyUsedWords a) /\
  getRandomWord (level (gameState a)) (words (gameState a))
                (recentlyUsedWords a) 0
  = (Selected "snow", StringSet.empty) /\
  step (slowFrame 51) a = Some a' /\
  map text (skipn 49 (words (gameState a'))) = ["snow"] /\
  recentlyUsedWords a' = StringSet.empty.
Proof.
  intros a a'.
  assert (Hrun : run (slowGame 50 ++ [InputChange "snow"; KeyPress "Enter"])
                     initialApp = Some a) by (vm_compute; reflexivity).
  split; [exact (played_reachable _ _ Hrun)|].
  split; [vm_compute; tauto|].
  split; [vm_compute; reflexivity|].
  split; [vm_compute; reflexivity|].
  split; vm_compute; reflexivity.
Qed.

(** ** Start of a session *)

(** C9, as stated, fails: in the state a lost game and a reset lead to,
    where the recently-used set holds the five words that were spawned,
    [startGame] leaves the set as it is. *)
Lemma startGame_memory_counterexample :
  let a := mkApp (mkGameState false false 0 1 0 [] "") 10035
                 ["cat"; "dog"; "run"; "jump"; "fast"] (Some 370) [] 371 in
  let a' := fst (startGame 12000 a) in
  run (lostGame 369 ++ [ClickReset]) initialApp = Some a /\
  ~ (phaseOf (gameState a') = Some Playing /\
     score (gameState a') = 0 /\ level (gameState a') = 1 /\
     lives (gameState a') = 3 /\ words (gameState a') = [] /\
     currentInput (gameState a') = "" /\ lastWordSpawnRef a' = 12000 /\
     recentlyUsedWords a' = StringSet.empty).
Proof.
  intros a a'. split; [vm_compute; reflexivity|].
  intros (_ & _ & _ & _ & _ & _ & _ & H). discriminate H.
Qed.

(** C9, amended. [startGame] always produces a session in the Playing
    phase with [score = 0], [level = 1], [lives = 3], no live word, an
    empty input and the time of the last spawn set to now, and raises the
    start notification; it leaves the recently-used word memory as it
    was.  The start event cannot fail, and the render that follows it
    keeps all of this. *)
Theorem startGame_resets (now : Z) (a : App) :
  let a' := fst (startGame now a) in
  phaseOf (gameState a') = Some Playing /\
  isPlaying (gameState a') = true /\ isGameOver (gameState a') = false /\
  score (gameState a') = 0 /\ level (gameState a') = 1 /\
  lives (gameState a') = 3 /\ words (gameState a') = [] /\
  currentInput (gameState a') = "" /\
  lastWordSpawnRef a' = now /\
  recentlyUsedWords a' = recentlyUsedWords a /\
  snd (startGame now a) = [(success, GameStarted)] /\
  exists a'', step (ClickStart now) a = Some a'' /\
              gameState a'' = gameState a' /\
              lastWordSpawnRef a'' = now /\
              recentlyUsedWords a'' = recentlyUsedWords a.
Proof.
  simpl. repeat (split; [reflexivity|]).
  eexists. split; [reflexivity|].
  destruct (commit_refs (gameState a) (fst (startGame now a))) as (-> & -> & ->).
  simpl. auto.
Qed.

(** ** The phases *)

(** C10. In every state reachable from the initial state by start,
    reset, animation frames and input events, [isPlaying] and
    [isGameOver] are not both true, so the two flags stand for exactly
    one of the phases Idle, Playing and GameOver. *)
Theorem flags_encode_phase (a : App) :
  reachable a ->
  ~ (isPlaying (gameState a) = true /\ isGameOver (gameState a) = true) /\
  exists phase, phaseOf (gameState a) = Some phase.
Proof.
  intros Hreach. apply reachable_invariant in Hreach.
  pose proof (inv_phase a Hreach) as H.
  split; [now apply phaseOf_defined|].
  destruct (phaseOf (gameState a)) as [phase|]; [eauto | congruence].
Qed.

Lemma flags_encode_phase_witness :
  let a := played (lostGame 369) in
  ~ (isPlaying (gameState a) = true /\ isGameOver (gameState a) = true) /\
  phaseOf (gameState a) = Some GameOver.
Proof.
  intros a.
  assert (Hrun : run (lostGame 369) initialApp = Some a)
    by (vm_compute; reflexivity).
  destruct (flags_encode_phase a (played_reachable _ _ Hrun)) as [H _].
  split; [exact H | vm_compute; reflexivity].
Defined.

(** * Further properties of the component *)

(** ** Words and their texts *)

Lemma liveTexts_app l1 l2 : liveTexts (l1 ++ l2) = liveTexts l1 ++ liveTexts l2.
Proof. apply map_app. Qed.

Lemma liveTexts_advance l : liveTexts (map advance l) = liveTexts l.
Proof. unfold liveTexts. rewrite map_map. reflexivity. Qed.

Lemma liveTexts_highlight value l :
  liveTexts (map (highlight value) l) = liveTexts l.
Proof.
  unfold liveTexts. rewrite map_map. apply map_ext. intros w.
  unfold highlight. destruct (_ && _); reflexivity.
Qed.

(** Removing words keeps the texts different. *)
Lemma liveTexts_filter_NoDup (keep : Word -> bool) (live : list Word) :
  NoDup (liveTexts live) -> NoDup (liveTexts (filter keep live)).
Proof.
  unfold liveTexts. induction live as [|word live IH]; simpl; intros Hd;
    [constructor|].
  apply NoDup_cons_iff in Hd as [Hfresh Hd].
  destruct (keep word); simpl; [|now apply IH].
  apply NoDup_cons_iff. split; [|now apply IH].
  rewrite in_map_iff. intros (other & Heq & Hother).
  apply filter_In in Hother as [Hother _].
  apply Hfresh. rewrite in_map_iff. exists other. now split.
Qed.

(** Two words of a list whose images under [f] are all different are the
    same word as soon as they have the same image. *)
Lemma NoDup_map_inj {A B : Type} (f : A -> B) (l : list A) (v w : A) :
  NoDup (map f l) -> In v l -> In w l -> f v = f w -> v = w.
Proof.
  induction l as [|u l IH]; simpl; intros H Hv Hw Heq; [contradiction|].
  inversion H as [|? ? Hnot Hrest]; subst.
  destruct Hv as [->|Hv], Hw as [->|Hw]; auto.
  - exfalso. apply Hnot. rewrite Heq. now apply in_map.
  - exfalso. apply Hnot. rewrite <- Heq. now apply in_map.
Qed.

Lemma ciPrefix_empty wordText : ciPrefix "" wordText.
Proof. exists (JS.toLowerCase wordText). reflexivity. Qed.

Lemma wordListOf_In lvl wordList :
  wordListOf lvl = Some wordList -> In wordList WORD_LISTS.
Proof. apply index_In. Qed.

Lemma bankWords_In wordList w :
  In wordList WORD_LISTS -> In w wordList -> In w bankWords.
Proof. intros H1 H2. apply in_concat. eauto. Qed.

Lemma wellFormedWord_advance word :
  wellFormedWord word -> wellFormedWord (advance word).
Proof. intros H. exact H. Qed.

Lemma wellFormedWord_highlight value word :
  wellFormedWord word -> wellFormedWord (highlight value word).
Proof.
  intros (Hb & _ & Hs). unfold highlight.
  destruct (JS.startsWith _ _) eqn:Hp; destruct (0 <? _); simpl;
    (split; [exact Hb | split; [|exact Hs]]); simpl;
    try apply ciPrefix_empty.
  now apply startsWith_iff in Hp.
Qed.

(** What a spawn does to the state. *)
Lemma spawnWordUpdate_inv area d recent prev gs recent' :
  spawnWordUpdate area d recent prev = Some (gs, recent') ->
  exists wordList wordText,
    wordListOf (level prev) = Some wordList /\
    In wordText wordList /\
    ~ In (JS.toLowerCase wordText) (liveTexts (words prev)) /\
    getRandomWord (level prev) (words prev) recent (drawWord d)
      = (Selected wordText, recent') /\
    gs = mkGameState (isPlaying prev) (isGameOver prev) (score prev)
           (level prev) (lives prev)
           (words prev ++ [newWord (clientWidth area) d prev wordText])
           (currentInput prev).
Proof.
  unfold spawnWordUpdate.
  destruct (getRandomWord _ _ _ _) as [[wordText| |] r] eqn:Hg; try discriminate.
  intros H. inversion H; subst. clear H.
  pose proof (getRandomWord_selected _ _ _ _ _ _ Hg) as (wordList & Htier & Hsel).
  exists wordList, wordText. split; [assumption|].
  destruct Hsel as [(_ & Hin & _) | (Hin & _)].
  - apply freshAvailableWords_In in Hin. tauto.
  - apply availableWords_In in Hin. tauto.
Qed.

Lemma newWord_wellFormed gameWidth d prev wordList wordText :
  1 <= level prev ->
  wordListOf (level prev) = Some wordList -> In wordText wordList ->
  wellFormedWord (newWord gameWidth d prev wordText).
Proof.
  intros Hl Htier Hin. split; [|split]; simpl.
  - eapply bankWords_In; [eapply wordListOf_In|]; eassumption.
  - apply ciPrefix_empty.
  - assert (H : (inject_Z 1 <= inject_Z (level prev))%Q)
      by (rewrite <- Zle_Qle; exact Hl).
    change (inject_Z 1) with 1%Q in H. lra.
Qed.

(** ** The animation frame, step by step *)

Lemma frame_step_cases now area d a a' :
  step (AnimationFrame now area d) a = Some a' ->
  (frameCallbacks a = [] /\ a' = a) \/
  exists h cb rest gs1 recent1 last1,
    frameCallbacks a = (h, cb) :: rest /\
    ((JS.ltb (getSpawnRate (loopLevel cb))
             (inject_Z (now - lastWordSpawnRef a)) = true /\
      spawnWord area d (recentlyUsedWords a) (gameState a) = Some (gs1, recent1) /\
      last1 = now)
     \/
     (JS.ltb (getSpawnRate (loopLevel cb))
             (inject_Z (now - lastWordSpawnRef a)) = false /\
      gs1 = gameState a /\ recent1 = recentlyUsedWords a /\
      last1 = lastWordSpawnRef a)) /\
    a' = commit (gameState a)
           (let a2 := mkApp (fst (updateWords area gs1)) last1 recent1
                            (gameLoopRef a) rest (nextHandle a) in
            if loopIsPlaying cb then requestFrame cb a2 else a2).
Proof.
  destruct (frameCallbacks a) as [|[h cb] rest] eqn:Hq.
  { rewrite frame_without_callback by assumption.
    intros H. inversion H. now left. }
  unfold step. simpl handle. rewrite Hq. unfold gameLoop. simpl.
  intros H. right. exists h, cb, rest.
  destruct (JS.ltb _ _) eqn:Hdue.
  - destruct (spawnWord _ _ _ _) as [[gs1 recent1]|] eqn:Hs; [|discriminate].
    simpl in H. inversion H; subst a'. clear H.
    exists gs1, recent1, now. split; [reflexivity|]. split; [|reflexivity].
    left. auto.
  - simpl in H. inversion H; subst a'. clear H.
    exists (gameState a), (recentlyUsedWords a), (lastWordSpawnRef a).
    split; [reflexivity|]. split; [|reflexivity]. right. auto.
Qed.

(** The words [updateWords] leaves are the previous words, or some of
    them after their move. *)
Lemma updateWords_words area prev :
  words (fst (updateWords area prev)) = words prev \/
  exists keep, words (fst (updateWords area prev))
               = filter keep (map advance (words prev)).
Proof.
  destruct area as [ar|]; simpl; [|now left]. right.
  destruct (_ && _); simpl.
  - exists (fun _ => false). induction (map advance (words prev)); auto.
  - eauto.
Qed.

Lemma spawnWord_inv area d recent prev gs recent' :
  spawnWord area d recent prev = Some (gs, recent') ->
  (area = None /\ gs = prev /\ recent' = recent) \/
  exists ar wordList wordText,
    area = Some ar /\
    wordListOf (level prev) = Some wordList /\
    In wordText wordList /\
    ~ In (JS.toLowerCase wordText) (liveTexts (words prev)) /\
    getRandomWord (level prev) (words prev) recent (drawWord d)
      = (Selected wordText, recent') /\
    gs = mkGameState (isPlaying prev) (isGameOver prev) (score prev)
           (level prev) (lives prev)
           (words prev ++ [newWord (clientWidth ar) d prev wordText])
           (currentInput prev).
Proof.
  destruct area as [ar|]; simpl.
  - intros H. right. apply spawnWordUpdate_inv in H.
    destruct H as (wordList & wordText & H). exists ar, wordList, wordText.
    tauto.
  - intros H. inversion H. left. auto.
Qed.

(** After the render, a game that is played has its frame requested, for
    the [gameLoop] of that render. *)
Lemma commit_loop rendered a :
  pendingFor rendered a ->
  (isPlaying rendered = true ->
   exists h, frameCallbacks a = [(h, mkLoop true (level rendered))]) ->
  isPlaying (gameState a) = true ->
  exists h, frameCallbacks (commit rendered a)
            = [(h, mkLoop true (level (gameState a)))].
Proof.
  intros Hp Hloop Hplay. unfold commit.
  destruct (depsChanged rendered (gameState a)) eqn:Hd.
  - assert (Hc : frameCallbacks (effectCleanup a) = [] /\
                 gameState (effectCleanup a) = gameState a).
    { unfold effectCleanup. destruct Hp as [Hq | (h & Hq & Hr & Hh & _)].
      - destruct (gameLoopRef a) as [h|]; [destruct (h =? 0)|]; simpl;
          rewrite ?Hq; auto.
      - rewrite Hr. destruct (Z.eqb_spec h 0); [lia|]. simpl. rewrite Hq.
        simpl. rewrite Z.eqb_refl. auto. }
    destruct Hc as (Hq & Hg). unfold effectBody. rewrite Hg, Hplay.
    exists (nextHandle (effectCleanup a)).
    unfold requestFrame. cbn [frameCallbacks gameState]. rewrite Hq.
    reflexivity.
  - apply depsChanged_false in Hd as [Hsame Hlvl].
    rewrite Hlvl. apply Hloop. congruence.
Qed.

(** ** What every reachable state looks like *)

Lemma initial_shape : Shape initialApp.
Proof.
  constructor; simpl; try discriminate; auto.
  - constructor.
  - exists 0. reflexivity.
Qed.

Lemma frame_shape now area d a a' :
  Invariant a -> Shape a ->
  step (AnimationFrame now area d) a = Some a' -> Shape a'.
Proof.
  intros Inv Sh Hstep.
  destruct (frame_step_cases _ _ _ _ _ Hstep)
    as [[_ ->] | (h & cb & rest & gs1 & recent1 & last1 & Hq & Hspawn & ->)];
    [assumption|].
  destruct Inv as [Hph _ _ _ Hll _ _ [Hn Hp]].
  destruct Hp as [Hq' | (h' & Hq' & Hr & Hh & Hplay)]; [congruence|].
  rewrite Hq in Hq'. inversion Hq'; subst h' cb rest. clear Hq'.
  destruct Sh as [Hw Hd Hidle Hover Hlevel Hscore Hloop].
  (* the state after the spawn, if any *)
  assert (H1 : isPlaying gs1 = true /\ isGameOver gs1 = isGameOver (gameState a)
               /\ score gs1 = score (gameState a)
               /\ level gs1 = level (gameState a)
               /\ lives gs1 = lives (gameState a)
               /\ Forall wellFormedWord (words gs1)
               /\ NoDup (liveTexts (words gs1))).
  { destruct Hspawn as [(_ & Hs & _) | (_ & -> & _)]; [|tauto].
    apply spawnWord_inv in Hs.
    destruct Hs as [(_ & -> & _) | (ar & wordList & wordText & _ & Htier & Hin & Hnew & _ & ->)];
      [tauto|].
    simpl. repeat (split; [auto; fail|]). split.
    - apply Forall_app. split; [assumption|]. constructor; [|constructor].
      eapply newWord_wellFormed; eassumption.
    - rewrite liveTexts_app. apply NoDup_app; [assumption | |].
      + simpl. repeat constructor. simpl. tauto.
      + intros v Hv [<-|[]]. contradiction. }
  destruct H1 as (Hp1 & Hg1 & Hs1 & Hl1 & Hv1 & Hw1 & Hd1).
  pose proof (updateWords_fields area gs1) as Hu. simpl in Hu.
  destruct Hu as (Hus & Hul & _ & Hflags).
  assert (Hover' : isGameOver (gameState a) = false).
  { apply phaseOf_defined in Hph.
    destruct (isGameOver (gameState a)); [exfalso; auto | reflexivity]. }
  simpl. constructor; after_commit; simpl.
  - destruct (updateWords_words area gs1) as [-> | [keep ->]]; [assumption|].
    apply Forall_forall. intros w Hin. apply filter_In in Hin as [Hin _].
    apply in_map_iff in Hin as (w0 & <- & Hin).
    apply wellFormedWord_advance. rewrite Forall_forall in Hw1. auto.
  - destruct (updateWords_words area gs1) as [-> | [keep ->]]; [assumption|].
    apply liveTexts_filter_NoDup. now rewrite liveTexts_advance.
  - destruct Hflags as [(_ & _ & _ & ->) | (-> & _)]; [reflexivity|].
    congruence.
  - destruct Hflags as [(_ & _ & -> & _) | (_ & ->)]; [reflexivity|].
    congruence.
  - congruence.
  - congruence.
  - intros Hplay'.
    destruct (commit_loop (gameState a)
                (requestFrame (mkLoop true (level (gameState a)))
                   (mkApp (fst (updateWords area gs1)) last1 recent1
                          (gameLoopRef a) [] (nextHandle a))))
      as [h0 Hres].
    + right. exists (nextHandle a). simpl. auto.
    + intros _. exists (nextHandle a). reflexivity.
    + exact Hplay'.
    + exists h0. rewrite Hres. simpl. reflexivity.
Qed.

(** The three outcomes of a key press. *)
Lemma handleKeyPress_cases key gs prev :
  handleKeyPress key gs prev = (prev, []) \/
  handleKeyPress key gs prev = (missUpdate prev, [(error, WordNotFound)]) \/
  exists w, key = "Enter" /\
            JS.truthy (JS.trim (currentInput gs)) = true /\
            targetWordOf gs = Some w /\
            handleKeyPress key gs prev =
              (fst (hitUpdate w (pointsFor gs w) prev),
               (success, PointsAwarded (pointsFor gs w))
                 :: snd (hitUpdate w (pointsFor gs w) prev)).
Proof.
  unfold handleKeyPress.
  destruct (String.eqb_spec key "Enter") as [->|Hk]; simpl; [|now left].
  destruct (JS.truthy _) eqn:Ht; [|now left].
  destruct (targetWordOf gs) as [w|] eqn:Hw; [|right; now left].
  right. right. exists w. auto.
Qed.

Lemma step_shape ev a a' :
  Invariant a -> Shape a -> step ev a = Some a' -> Shape a'.
Proof.
  destruct ev as [now area d | now | | value | key];
    [apply frame_shape | | | |];
    intros [Hph _ _ _ Hll _ _ [Hn Hp]] [Hw Hd Hidle Hover Hlevel Hscore Hloop] H;
    unfold step in H; simpl in H; inversion H; subst a'; clear H.
  - (* startGame *)
    constructor; after_commit; simpl; auto; try discriminate.
    + constructor.
    + exists 0. reflexivity.
    + intros _.
      destruct (commit_loop (gameState a) (fst (startGame now a)) Hp Hloop eq_refl)
        as [h Hres].
      exists h. exact Hres.
  - (* resetGame *)
    constructor; after_commit; simpl; auto; try discriminate. constructor.
  - (* handleInputChange *)
    constructor; after_commit; simpl; auto.
    + apply Forall_forall. intros w Hin.
      apply in_map_iff in Hin as (w0 & <- & Hin).
      apply wellFormedWord_highlight. rewrite Forall_forall in Hw. auto.
    + now rewrite liveTexts_highlight.
    + intros Hplay. rewrite Hidle by assumption. reflexivity.
    + intros Hplay.
      exact (commit_loop (gameState a)
               (withGameState (handleInputChange value (gameState a)) a)
               Hp Hloop Hplay).
  - (* handleKeyPress *)
    set (gs := gameState a) in *.
    assert (Hfields :
      let next := fst (handleKeyPress key gs gs) in
      Forall wellFormedWord (words next) /\ NoDup (liveTexts (words next)) /\
      (isPlaying next = false -> words next = []) /\
      (isGameOver next = true -> lives next = 0) /\
      level next = score next / 1000 + 1 /\ (10 | score next) /\
      isPlaying next = isPlaying gs).
    { destruct (handleKeyPress_cases key gs gs)
        as [-> | [-> | (w & _ & _ & _ & ->)]]; simpl; try tauto.
      repeat split; auto.
      - apply Forall_forall. intros v Hin. apply filter_In in Hin as [Hin _].
        rewrite Forall_forall in Hw. auto.
      - now apply liveTexts_filter_NoDup.
      - intros Hplay. rewrite Hidle by assumption. reflexivity.
      - apply Z.divide_add_r; [assumption|]. unfold pointsFor.
        exists (Z.of_nat (String.length (text w)) * level gs). lia. }
    cbv zeta in Hfields.
    destruct Hfields as (F1 & F2 & F3 & F4 & F5 & F6 & F7).
    constructor; after_commit; simpl; auto.
    intros Hplay.
    exact (commit_loop gs (withGameState (fst (handleKeyPress key gs gs)) a)
             Hp ltac:(exact Hloop) Hplay).
Qed.

Lemma reachable_shape a : reachable a -> Shape a.
Proof.
  induction 1 as [|ev a a' Hreach IH Hstep]; [apply initial_shape|].
  eapply step_shape; [apply reachable_invariant| |]; eassumption.
Qed.

(** ** The spawn rate *)

(** X1. The time between two spawns is never below 500 ms; from level 1
    on it is at most 2000 ms; it does not grow with the level; and from
    level 5 on it is 500 ms. *)
Theorem getSpawnRate_bounds (level1 level2 : Z) :
  (500 <= getSpawnRate level1)%Q /\
  (1 <= level1 -> (getSpawnRate level1 <= 2000)%Q) /\
  (level1 <= level2 -> (getSpawnRate level2 <= getSpawnRate level1)%Q) /\
  (5 <= level1 -> (getSpawnRate level1 == 500)%Q).
Proof.
  unfold getSpawnRate.
  assert (Hinj : forall a b, a <= b -> (inject_Z (a - 1) <= inject_Z (b - 1))%Q)
    by (intros a b H; rewrite <- Zle_Qle; lia).
  split; [apply Q.le_max_r|]. split; [|split].
  - intros H. apply Q.max_lub; [|lra].
    pose proof (Hinj 1 level1 H) as H1. change (inject_Z (1 - 1)) with 0%Q in H1.
    lra.
  - intros H. pose proof (Hinj _ _ H) as H1.
    apply Q.max_le_compat_r. lra.
  - intros H. pose proof (Hinj 5 level1 H) as H1.
    change (inject_Z (5 - 1)) with 4%Q in H1.
    apply Q.max_r. lra.
Qed.

Lemma getSpawnRate_bounds_witness :
  (getSpawnRate 2 <= 2000)%Q /\ (getSpawnRate 4 <= getSpawnRate 2)%Q /\
  (getSpawnRate 7 == 500)%Q.
Proof.
  destruct (getSpawnRate_bounds 2 4) as (_ & H1 & H2 & _).
  destruct (getSpawnRate_bounds 7 7) as (_ & _ & _ & H3).
  split; [apply H1; lia|]. split; [apply H2; lia | apply H3; lia].
Defined.

(** ** Spawning *)

(** X2. At a level whose tier holds a word that is not on screen, a
    spawn in a measured play area of width 100 or more, with the draws
    for the word and for the horizontal position in [0, 1), yields a
    state: it appends exactly one word and changes nothing else of the
    game state; the new word has the drawn identifier, a text of the
    level's tier that is not on screen, [x] between 0 and [width - 100],
    [y = -50], speed [1 + level / 2] and no highlight. *)
Theorem spawnWord_appends_one_word (area : Area) (d : Draw)
    (recent : StringSet.t) (prev : GameState) (wordList : list string) :
  wordListOf (level prev) = Some wordList ->
  freshAvailableWords (words prev) wordList <> [] ->
  (0 <= drawWord d)%Q -> (drawWord d < 1)%Q ->
  100 <= clientWidth area ->
  (0 <= drawX d)%Q -> (drawX d < 1)%Q ->
  exists gs recent' word,
    spawnWord (Some area) d recent prev = Some (gs, recent') /\
    gs = mkGameState (isPlaying prev) (isGameOver prev) (score prev)
           (level prev) (lives prev) (words prev ++ [word]) (currentInput prev) /\
    id word = drawId d /\
    In (text word) wordList /\
    ~ In (JS.toLowerCase (text word)) (liveTexts (words prev)) /\
    (0 <= x word)%Q /\ (x word <= inject_Z (clientWidth area - 100))%Q /\
    y word = (-50)%Q /\
    (speed word == 1 + inject_Z (level prev) / 2)%Q /\
    matched word = "".
Proof.
  intros Htier Hfresh Hwlo Hwhi Hwidth Hlo Hhi.
  destruct (getRandomWord_progress (level prev) (words prev) recent (drawWord d)
              wordList Htier Hwlo Hwhi Hfresh) as (picked & recent' & Hpick).
  assert (Hs : spawnWord (Some area) d recent prev
               = Some (mkGameState (isPlaying prev) (isGameOver prev)
                         (score prev) (level prev) (lives prev)
                         (words prev ++ [newWord (clientWidth area) d prev picked])
                         (currentInput prev),
                       recent')).
  { simpl. unfold spawnWordUpdate. rewrite Hpick. reflexivity. }
  pose proof Hs as Hinv. simpl in Hinv. apply spawnWordUpdate_inv in Hinv.
  destruct Hinv as (wordList' & wordText & Htier' & Hin & Hnew & _ & Heq).
  assert (wordList' = wordList) by congruence. subst wordList'.
  assert (wordText = picked).
  { inversion Heq as [Hwords]. apply app_inv_head in Hwords.
    inversion Hwords. reflexivity. }
  subst wordText.
  eexists _, recent', (newWord (clientWidth area) d prev picked).
  split; [exact Hs|]. simpl.
  assert (Hw : (0 <= inject_Z (clientWidth area - 100))%Q).
  { change 0%Q with (inject_Z 0). rewrite <- Zle_Qle. lia. }
  repeat (split; [auto; fail|]).
  split; [apply Qmult_le_0_compat; assumption|].
  split; [|split; [reflexivity|split; [field | reflexivity]]].
  setoid_replace (inject_Z (clientWidth area - 100))
    with (1 * inject_Z (clientWidth area - 100))%Q at 2 by ring.
  apply Qmult_le_compat_r; [lra | assumption].
Qed.

Lemma spawnWord_appends_one_word_witness :
  let prev := mkGameState true false 0 2 3 [sample "a1" "house" 0] "" in
  let d := mkDraw "b7" 0 (1 # 2) in
  exists gs recent' word,
    spawnWord (Some playArea) d [] prev = Some (gs, recent') /\
    gs = mkGameState true false 0 2 3 ([sample "a1" "house" 0] ++ [word]) "" /\
    id word = "b7" /\
    In (text word) (nth 1 WORD_LISTS []) /\
    ~ In (JS.toLowerCase (text word)) (liveTexts [sample "a1" "house" 0]) /\
    (0 <= x word)%Q /\ (x word <= inject_Z (800 - 100))%Q /\
    y word = (-50)%Q /\
    (speed word == 1 + inject_Z 2 / 2)%Q /\
    matched word = "".
Proof.
  intros prev d.
  apply (spawnWord_appends_one_word playArea d [] prev (nth 1 WORD_LISTS []));
    [reflexivity | vm_compute; discriminate | simpl; lra | simpl; lra
    | simpl; lia | simpl; lra | simpl; lra].
Defined.

(** ** The word bank *)

Lemma availableWords_fresh currentWords recent wordList w :
  In w (availableWords currentWords recent wordList) ->
  In w (freshAvailableWords currentWords wordList).
Proof.
  rewrite availableWords_In, freshAvailableWords_In. tauto.
Qed.

Lemma randomElement_nil {A : Type} (u : Q) :
  JS.randomElement (@nil A) u = None.
Proof.
  unfold JS.randomElement, JS.index. destruct (_ <? 0); [reflexivity|].
  destruct (Z.to_nat _); reflexivity.
Qed.

(** A word that was not in the set is in it once recorded. *)
Lemma remember_In recent w :
  ~ In (JS.toLowerCase w) recent -> In (JS.toLowerCase w) (remember recent w).
Proof.
  intros Hnew. unfold remember, StringSet.add.
  apply StringSetFacts.has_false_iff in Hnew. rewrite Hnew.
  apply StringSetFacts.has_false_iff in Hnew.
  assert (Hlast : In (JS.toLowerCase w) (recent ++ [JS.toLowerCase w]))
    by (apply in_or_app; right; now left).
  destruct (20 <? _) eqn:Hbig; [|assumption].
  destruct recent as [|oldest rest]; [discriminate Hbig|].
  simpl StringSet.first. cbv iota.
  unfold StringSet.delete. apply filter_In. split; [assumption|].
  apply negb_true_iff, String.eqb_neq. intros Heq. apply Hnew. now left.
Qed.

(** X3. [getRandomWord] takes its words from the tier of the level: the
    tier of level 4 serves every higher level; below level 1 there is no
    tier and the call throws, leaving the recently-used set alone; and a
    word that is returned belongs to the tier of the level. *)
Theorem getRandomWord_tier (lvl : Z) (currentWords : list Word)
    (recent : StringSet.t) (u : Q) :
  (4 <= lvl -> wordListOf lvl = wordListOf 4) /\
  (lvl <= 0 -> getRandomWord lvl currentWords recent u = (TypeError, recent)) /\
  (forall w recent',
     getRandomWord lvl currentWords recent u = (Selected w, recent') ->
     1 <= lvl /\
     exists wordList, wordListOf lvl = Some wordList /\ In w wordList).
Proof.
  split; [|split].
  - intros H. unfold wordListOf. f_equal. simpl. lia.
  - intros H. unfold getRandomWord, wordListOf, JS.index.
    replace (Z.min (lvl - 1) (Z.of_nat (List.length WORD_LISTS) - 1) <? 0)
      with true; [reflexivity|].
    symmetry. apply Z.ltb_lt. simpl. lia.
  - intros w recent' H. split.
    + destruct (Z.le_gt_cases 1 lvl) as [|Hlow]; [assumption|].
      unfold getRandomWord, wordListOf, JS.index in H.
      replace (Z.min (lvl - 1) (Z.of_nat (List.length WORD_LISTS) - 1) <? 0)
        with true in H; [discriminate|].
      symmetry. apply Z.ltb_lt. simpl. lia.
    + apply getRandomWord_selected in H.
      destruct H as (wordList & Htier & [(_ & Hin & _) | (Hin & _)]);
        exists wordList; (split; [assumption|]).
      * apply freshAvailableWords_In in Hin. tauto.
      * apply availableWords_In in Hin. tauto.
Qed.

Lemma getRandomWord_tier_witness :
  wordListOf 9 = wordListOf 4 /\
  getRandomWord (-2) [] ["cat"] 0 = (TypeError, ["cat"]) /\
  exists wordList, wordListOf 9 = Some wordList /\ In "extraordinary" wordList.
Proof.
  destruct (getRandomWord_tier 9 [] [] 0) as (H1 & _ & H3).
  destruct (getRandomWord_tier (-2) [] ["cat"] 0) as (_ & H2 & _).
  split; [apply H1; lia|]. split; [apply H2; lia|].
  exact (proj2 (H3 "extraordinary" ["extraordinary"] eq_refl)).
Defined.

(** X4. From level 1 on and with a number drawn in [0, 1), [getRandomWord]
    never throws: when every word of the tier is on screen it returns
    [undefined] and empties the recently-used set, and otherwise it
    returns a word. *)
Theorem getRandomWord_exhaustion (lvl : Z) (currentWords : list Word)
    (recent : StringSet.t) (u : Q) (wordList : list string) :
  wordListOf lvl = Some wordList ->
  (0 <= u)%Q -> (u < 1)%Q ->
  (freshAvailableWords currentWords wordList = [] ->
   getRandomWord lvl currentWords recent u = (Undefined, StringSet.empty)) /\
  (freshAvailableWords currentWords wordList <> [] ->
   exists w recent',
     getRandomWord lvl currentWords recent u = (Selected w, recent')) /\
  fst (getRandomWord lvl currentWords recent u) <> TypeError.
Proof.
  intros Htier Hlo Hhi.
  assert (Hempty : freshAvailableWords currentWords wordList = [] ->
                   getRandomWord lvl currentWords recent u
                   = (Undefined, StringSet.empty)).
  { intros Hfresh. unfold getRandomWord. rewrite Htier.
    destruct (availableWords currentWords recent wordList) as [|v l] eqn:Hav.
    - simpl. rewrite Hfresh, randomElement_nil. reflexivity.
    - exfalso. assert (Hin : In v (availableWords currentWords recent wordList))
        by (rewrite Hav; now left).
      apply availableWords_fresh in Hin. rewrite Hfresh in Hin. contradiction. }
  split; [assumption|]. split.
  - now apply getRandomWord_progress.
  - destruct (freshAvailableWords currentWords wordList) as [|v l] eqn:Hfresh.
    + rewrite Hempty by reflexivity. discriminate.
    + destruct (getRandomWord_progress lvl currentWords recent u wordList
                  Htier Hlo Hhi) as (w & recent' & ->);
        [rewrite Hfresh|]; discriminate.
Qed.

Lemma getRandomWord_exhaustion_witness :
  let live := map (fun t => sample t t 0)
                  ["cat"; "dog"; "run"; "jump"; "fast"; "slow"; "big"; "small";
                   "hot"; "cold"; "red"; "blue"; "good"; "bad"; "new"; "old";
                   "yes"; "no"; "up"; "down"; "in"; "out"; "on"; "off"; "top";
                   "end"; "man"; "boy"; "girl"; "car"; "bus"; "sun"; "moon";
                   "day"; "year"; "way"; "may"; "say"; "play"; "try"; "why";
                   "how"; "now"; "low"; "show"; "know"; "grow"; "flow"; "blow";
                   "snow"] in
  getRandomWord 1 live ["cat"; "dog"] (1 # 2) = (Undefined, StringSet.empty) /\
  exists w recent', getRandomWord 1 (tl live) ["dog"] (1 # 2) = (Selected w, recent').
Proof.
  intros live.
  assert (Htier : wordListOf 1 = Some (hd [] WORD_LISTS)) by reflexivity.
  destruct (getRandomWord_exhaustion 1 live ["cat"; "dog"] (1 # 2) _ Htier
              ltac:(lra) ltac:(lra)) as (H1 & _ & _).
  destruct (getRandomWord_exhaustion 1 (tl live) ["dog"] (1 # 2) _ Htier
              ltac:(lra) ltac:(lra)) as (_ & H2 & _).
  split; [apply H1; vm_compute; reflexivity
         | apply H2; vm_compute; discriminate].
Defined.

(** X5. While the tier holds a word that is neither on screen nor in the
    recently-used set, the word [getRandomWord] returns is such a word,
    and it is in the set after the call; a word of the set is returned
    only when no such word is left, and then the set is empty after the
    call. *)
Theorem getRandomWord_avoids_recent (lvl : Z) (currentWords : list Word)
    (recent : StringSet.t) (u : Q) (wordList : list string) (w : string)
    (recent' : StringSet.t) :
  wordListOf lvl = Some wordList ->
  getRandomWord lvl currentWords recent u = (Selected w, recent') ->
  (availableWords currentWords recent wordList <> [] ->
   ~ In (JS.toLowerCase w) recent /\ In (JS.toLowerCase w) recent') /\
  (In (JS.toLowerCase w) recent ->
   availableWords currentWords recent wordList = [] /\
   recent' = StringSet.empty).
Proof.
  intros Htier H. apply getRandomWord_selected in H.
  destruct H as (wordList' & Htier' & Hsel).
  rewrite Htier in Htier'. inversion Htier'; subst wordList'. clear Htier'.
  destruct Hsel as [(Hav & _ & ->) | (Hin & ->)].
  - split; [congruence | auto].
  - apply availableWords_In in Hin. destruct Hin as (_ & _ & Hnew).
    split; [|contradiction].
    intros _. split; [assumption | now apply remember_In].
Qed.

Lemma getRandomWord_avoids_recent_witness :
  ~ In "run" ["cat"; "dog"] /\ In "run" ["cat"; "dog"; "run"].
Proof.
  assert (Htier : wordListOf 1 = Some (hd [] WORD_LISTS)) by reflexivity.
  apply (proj1 (getRandomWord_avoids_recent 1 [] ["cat"; "dog"] 0 _ "run"
                  ["cat"; "dog"; "run"] Htier eq_refl)).
  discriminate.
Defined.

(** ** The session *)

(** X6. In every reachable state the live words have pairwise different
    texts, letter case apart; so at most one live word matches a
    confirmed input. *)
Theorem live_texts_distinct (a : App) :
  reachable a ->
  NoDup (liveTexts (words (gameState a))) /\
  forall v w, In v (words (gameState a)) -> In w (words (gameState a)) ->
              isTarget (gameState a) v = true ->
              isTarget (gameState a) w = true -> v = w.
Proof.
  intros Hreach. pose proof (shape_distinct a (reachable_shape a Hreach)) as Hd.
  split; [assumption|].
  intros v w Hv Hw Tv Tw. unfold isTarget in Tv, Tw.
  apply String.eqb_eq in Tv, Tw.
  eapply (NoDup_map_inj (fun word => JS.toLowerCase (text word)));
    [exact Hd | assumption | assumption | congruence].
Qed.

Lemma live_texts_distinct_witness :
  NoDup (liveTexts (words (gameState (played (slowGame 3))))).
Proof.
  assert (Hrun : run (slowGame 3) initialApp = Some (played (slowGame 3)))
    by (vm_compute; reflexivity).
  exact (proj1 (live_texts_distinct _ (played_reachable _ _ Hrun))).
Defined.

(** X7. In every reachable state [lives] is between 0 and 3; it is at
    least 1 while the game is played and 0 once the game is over. *)
Theorem lives_within_bounds (a : App) :
  reachable a ->
  0 <= lives (gameState a) <= 3 /\
  (isPlaying (gameState a) = true -> 1 <= lives (gameState a)) /\
  (isGameOver (gameState a) = true -> lives (gameState a) = 0).
Proof.
  intros Hreach.
  pose proof (reachable_invariant a Hreach) as Inv.
  pose proof (reachable_shape a Hreach) as Sh.
  split; [exact (inv_lives a Inv)|]. split.
  - intros H. pose proof (inv_alive a Inv H). lia.
  - exact (shape_over a Sh).
Qed.

Lemma lives_within_bounds_witness :
  lives (gameState (played (lostGame 369))) = 0 /\
  1 <= lives (gameState (played (lostGame 368))).
Proof.
  assert (Hrun : run (lostGame 369) initialApp = Some (played (lostGame 369)))
    by (vm_compute; reflexivity).
  assert (Hrun' : run (lostGame 368) initialApp = Some (played (lostGame 368)))
    by (vm_compute; reflexivity).
  split.
  - apply (lives_within_bounds _ (played_reachable _ _ Hrun)).
    vm_compute. reflexivity.
  - apply (lives_within_bounds _ (played_reachable _ _ Hrun')).
    vm_compute. reflexivity.
Defined.

(** X8. In every reachable state the score is a multiple of 10 that is
    not negative, and the level is [floor (score / 1000) + 1], so at
    least 1. *)
Theorem level_follows_score (a : App) :
  reachable a ->
  0 <= score (gameState a) /\ (10 | score (gameState a)) /\
  level (gameState a) = score (gameState a) / 1000 + 1 /\
  1 <= level (gameState a).
Proof.
  intros Hreach.
  pose proof (reachable_invariant a Hreach) as Inv.
  pose proof (reachable_shape a Hreach) as Sh.
  repeat split; [exact (inv_score a Inv) | exact (shape_score a Sh)
                | exact (shape_level a Sh) | exact (inv_level a Inv)].
Qed.

Lemma level_follows_score_witness :
  let a := played (slowGame 3 ++ [InputChange "dog"; KeyPress "Enter"]) in
  score (gameState a) = 30 /\ level (gameState a) = 30 / 1000 + 1.
Proof.
  intros a.
  assert (Hrun : run (slowGame 3 ++ [InputChange "dog"; KeyPress "Enter"])
                     initialApp = Some a) by (vm_compute; reflexivity).
  destruct (level_follows_score a (played_reachable _ _ Hrun))
    as (_ & _ & H & _).
  split; [vm_compute; reflexivity|].
  rewrite H. vm_compute. reflexivity.
Defined.

(** X9. Within a round, that is along any event but a start, the score
    and the level never decrease and the lives never increase. *)
Theorem round_is_monotone (ev : Event) (a a' : App) :
  reachable a ->
  step ev a = Some a' ->
  (forall now, ev <> ClickStart now) ->
  score (gameState a) <= score (gameState a') /\
  level (gameState a) <= level (gameState a') /\
  lives (gameState a') <= lives (gameState a).
Proof.
  intros Hreach Hstep Hev.
  pose proof (reachable_invariant a Hreach) as Inv.
  destruct ev as [now area d | now | | value | key].
  - destruct (frame_step_cases _ _ _ _ _ Hstep)
      as [[_ ->] | (h & cb & rest & gs1 & recent1 & last1 & _ & Hspawn & ->)];
      [lia|].
    after_commit.
    assert (H1 : score gs1 = score (gameState a) /\
                 level gs1 = level (gameState a) /\
                 lives gs1 = lives (gameState a)).
    { destruct Hspawn as [(_ & Hs & _) | (_ & -> & _)]; [|tauto].
      apply spawnWord_fields in Hs. tauto. }
    destruct H1 as (Hs1 & Hl1 & Hv1).
    pose proof (updateWords_fields area gs1) as Hu. simpl in Hu.
    pose proof (updateWords_lives area gs1) as Hlives.
    pose proof (inv_lives a Inv).
    destruct (loopIsPlaying cb); simpl; lia.
  - exfalso. exact (Hev now eq_refl).
  - unfold step in Hstep. simpl in Hstep. inversion Hstep; subst a'.
    after_commit. simpl. lia.
  - unfold step in Hstep. simpl in Hstep. inversion Hstep; subst a'.
    after_commit. simpl. lia.
  - unfold step in Hstep. simpl in Hstep. inversion Hstep; subst a'.
    after_commit. simpl.
    pose proof (inv_score a Inv) as Hs. pose proof (inv_level a Inv) as Hl.
    destruct (handleKeyPress_cases key (gameState a) (gameState a))
      as [-> | [-> | (w & _ & _ & _ & ->)]]; simpl; try lia.
    assert (Hp : 0 <= pointsFor (gameState a) w) by (unfold pointsFor; nia).
    pose proof (shape_level a (reachable_shape a Hreach)) as Hlevel.
    split; [lia|]. split; [|lia].
    rewrite Hlevel.
    pose proof (Z.div_le_mono (score (gameState a))
                  (score (gameState a) + pointsFor (gameState a) w) 1000
                  ltac:(lia) ltac:(lia)).
    lia.
Qed.

Lemma round_is_monotone_witness :
  let a := played (slowGame 3 ++ [InputChange "dog"]) in
  let a' := played (slowGame 3 ++ [InputChange "dog"; KeyPress "Enter"]) in
  score (gameState a) <= score (gameState a') /\
  level (gameState a) <= level (gameState a') /\
  lives (gameState a') <= lives (gameState a).
Proof.
  intros a a'.
  assert (Hrun : run (slowGame 3 ++ [InputChange "dog"]) initialApp = Some a)
    by (vm_compute; reflexivity).
  assert (Hstep : step (KeyPress "Enter") a = Some a')
    by (vm_compute; reflexivity).
  apply (round_is_monotone (KeyPress "Enter") a a'
           (played_reachable _ _ Hrun) Hstep).
  intros now. discriminate.
Defined.

(** X10. Words are on screen only while the game is played: in every
    reachable state that is not in the Playing phase the list of live
    words is empty. *)
Theorem words_only_while_playing (a : App) :
  reachable a ->
  isPlaying (gameState a) = false ->
  words (gameState a) = [].
Proof.
  intros Hreach. exact (shape_idle a (reachable_shape a Hreach)).
Qed.

Lemma words_only_while_playing_witness :
  words (gameState (played (slowGame 3 ++ [ClickReset]))) = [].
Proof.
  assert (Hrun : run (slowGame 3 ++ [ClickReset]) initialApp
                 = Some (played (slowGame 3 ++ [ClickReset])))
    by (vm_compute; reflexivity).
  apply (words_only_while_playing _ (played_reachable _ _ Hrun)).
  vm_compute. reflexivity.
Defined.

(** X11. The animation loop runs exactly while the game is played: in
    every reachable state, while [isPlaying] one animation frame is
    requested, its handle is the one [gameLoopRef] holds and its callback
    is the [gameLoop] of the current level; otherwise none is
    requested. *)
Theorem loop_runs_while_playing (a : App) :
  reachable a ->
  (isPlaying (gameState a) = true ->
   exists h, frameCallbacks a = [(h, mkLoop true (level (gameState a)))] /\
             gameLoopRef a = Some h) /\
  (isPlaying (gameState a) = false -> frameCallbacks a = []).
Proof.
  intros Hreach.
  pose proof (reachable_invariant a Hreach) as Inv.
  pose proof (reachable_shape a Hreach) as Sh.
  destruct (inv_scheduled a Inv) as [_ Hp]. split.
  - intros Hplay. destruct (shape_loop a Sh Hplay) as [h Hq].
    exists h. split; [assumption|].
    destruct Hp as [Hnil | (h' & Hq' & Hr & _)]; [congruence|].
    rewrite Hq in Hq'. inversion Hq'. subst h'. assumption.
  - intros Hidle. destruct Hp as [Hnil | (h' & _ & _ & _ & Hplay)];
      [assumption | congruence].
Qed.

Lemma loop_runs_while_playing_witness :
  (exists h, frameCallbacks (played (slowGame 3)) = [(h, mkLoop true 1)] /\
             gameLoopRef (played (slowGame 3)) = Some h) /\
  frameCallbacks (played (slowGame 3 ++ [ClickReset])) = [].
Proof.
  assert (Hrun : run (slowGame 3) initialApp = Some (played (slowGame 3)))
    by (vm_compute; reflexivity).
  assert (Hrun' : run (slowGame 3 ++ [ClickReset]) initialApp
                  = Some (played (slowGame 3 ++ [ClickReset])))
    by (vm_compute; reflexivity).
  split.
  - apply (proj1 (loop_runs_while_playing _ (played_reachable _ _ Hrun))).
    vm_compute. reflexivity.
  - apply (proj2 (loop_runs_while_playing _ (played_reachable _ _ Hrun'))).
    vm_compute. reflexivity.
Defined.

(** ** Words of the bank *)

Lemma bankWords_shape :
  forallb (fun t => (2 <=? String.length t)%nat
                    && String.eqb (JS.toLowerCase t) t) bankWords = true.
Proof. vm_compute. reflexivity. Qed.

Lemma bankWords_spec t :
  In t bankWords -> (2 <= String.length t)%nat /\ JS.toLowerCase t = t.
Proof.
  intros H. pose proof bankWords_shape as Hall.
  rewrite forallb_forall in Hall. apply Hall in H.
  apply andb_true_iff in H as [H1 H2].
  split; [now apply Nat.leb_le | now apply String.eqb_eq].
Qed.

(** X12. In every reachable state every live word has a text of the word
    bank, which is lowercase and at least two letters long, and a speed
    of at least a pixel and a half per tick. *)
Theorem live_words_from_bank (a : App) (word : Word) :
  reachable a ->
  In word (words (gameState a)) ->
  In (text word) bankWords /\
  JS.toLowerCase (text word) = text word /\
  (2 <= String.length (text word))%nat /\
  (3 # 2 <= speed word)%Q.
Proof.
  intros Hreach Hin.
  pose proof (shape_words a (reachable_shape a Hreach)) as Hw.
  rewrite Forall_forall in Hw. destruct (Hw word Hin) as (Hb & _ & Hs).
  destruct (bankWords_spec _ Hb). auto.
Qed.

Lemma live_words_from_bank_witness :
  let a := played (slowGame 3) in
  Forall (fun word => In (text word) bankWords /\ (3 # 2 <= speed word)%Q)
         (words (gameState a)).
Proof.
  intros a.
  assert (Hrun : run (slowGame 3) initialApp = Some a)
    by (vm_compute; reflexivity).
  apply Forall_forall. intros word Hin.
  destruct (live_words_from_bank a word (played_reachable _ _ Hrun) Hin)
    as (H1 & _ & _ & H2).
  split; assumption.
Defined.

(** ** Confirmation *)

Lemma find_first {A : Type} (p : A -> bool) (l : list A) (v : A) :
  find p l = Some v ->
  exists l1 l2, l = l1 ++ v :: l2 /\ p v = true /\
                forall u, In u l1 -> p u = false.
Proof.
  induction l as [|u l IH]; simpl; [discriminate|].
  destruct (p u) eqn:Hp.
  - intros H. inversion H; subst. exists [], l. simpl. tauto.
  - intros H. destruct (IH H) as (l1 & l2 & -> & Hv & Hl1).
    exists (u :: l1), l2. simpl. split; [reflexivity|]. split; [assumption|].
    intros u' [<-|Hin]; auto.
Qed.

(** X13. When several live words have the confirmed text, the word that
    is hit is the first of them in the order of the list: no word before
    it matches. *)
Theorem targetWordOf_is_first_match (gs : GameState) (w : Word) :
  targetWordOf gs = Some w ->
  exists before after,
    words gs = before ++ w :: after /\
    JS.toLowerCase (text w) = JS.trim (JS.toLowerCase (currentInput gs)) /\
    forall v, In v before ->
              JS.toLowerCase (text v) <> JS.trim (JS.toLowerCase (currentInput gs)).
Proof.
  intros H. apply find_first in H.
  destruct H as (l1 & l2 & Heq & Hw & Hl1). exists l1, l2.
  split; [assumption|]. split; [now apply String.eqb_eq|].
  intros v Hv. apply String.eqb_neq. exact (Hl1 v Hv).
Qed.

Lemma targetWordOf_is_first_match_witness :
  let gs := mkGameState true false 0 1 3
              [sample "a1" "dog" 0; sample "a2" "Cat" 5; sample "a3" "cat" 9]
              "cat" in
  exists before after,
    words gs = before ++ sample "a2" "Cat" 5 :: after /\
    JS.toLowerCase "Cat" = JS.trim (JS.toLowerCase "cat") /\
    forall v, In v before ->
              JS.toLowerCase (text v) <> JS.trim (JS.toLowerCase "cat").
Proof.
  intros gs. exact (targetWordOf_is_first_match gs (sample "a2" "Cat" 5) eq_refl).
Defined.

(** X14. In a reachable state, a confirmation that matches a live word
    [w] removes [w], keeps every word whose identifier differs from the
    one of [w] as it is, adds no word, and raises the score by at least
    20. *)
Theorem hit_removes_the_word (a : App) (w : Word) :
  reachable a ->
  JS.truthy (JS.trim (currentInput (gameState a))) = true ->
  targetWordOf (gameState a) = Some w ->
  let next := fst (handleKeyPress "Enter" (gameState a) (gameState a)) in
  ~ In w (words next) /\
  (forall v, In v (words (gameState a)) -> id v <> id w -> In v (words next)) /\
  (forall v, In v (words next) -> In v (words (gameState a))) /\
  score (gameState a) + 20 <= score next.
Proof.
  intros Hreach Ht Hw next. subst next.
  rewrite (handleKeyPress_hit _ _ w Ht Hw). simpl.
  destruct (targetWordOf_Some _ _ Hw) as [Hin _].
  split; [|split; [|split]].
  - intros H. apply filter_In in H as [_ H].
    rewrite String.eqb_refl in H. discriminate.
  - intros v Hv Hid. apply filter_In. split; [assumption|].
    now apply negb_true_iff, String.eqb_neq.
  - intros v Hv. now apply filter_In in Hv as [Hv _].
  - pose proof (inv_level a (reachable_invariant a Hreach)) as Hl.
    pose proof (shape_words a (reachable_shape a Hreach)) as Hwf.
    rewrite Forall_forall in Hwf. destruct (Hwf w Hin) as (Hb & _).
    destruct (bankWords_spec _ Hb) as [Hlen _].
    unfold pointsFor. nia.
Qed.

Lemma hit_removes_the_word_witness :
  let a := played (slowGame 3 ++ [InputChange "dog"]) in
  let next := fst (handleKeyPress "Enter" (gameState a) (gameState a)) in
  map text (words next) = ["cat"; "run"] /\
  score (gameState a) + 20 <= score next.
Proof.
  intros a next.
  assert (Hrun : run (slowGame 3 ++ [InputChange "dog"]) initialApp = Some a)
    by (vm_compute; reflexivity).
  assert (Hw : exists w, targetWordOf (gameState a) = Some w).
  { destruct (targetWordOf (gameState a)) as [w|] eqn:E; [eauto|].
    exfalso. revert E. vm_compute. discriminate. }
  destruct Hw as [w Hw].
  assert (Ht : JS.truthy (JS.trim (currentInput (gameState a))) = true)
    by (vm_compute; reflexivity).
  destruct (hit_removes_the_word a w (played_reachable _ _ Hrun) Ht Hw)
    as (_ & _ & _ & H).
  split; [vm_compute; reflexivity | exact H].
Defined.

(** ** Typing *)

(** X15. Only the last input text counts for the highlights: typing [u]
    and then [v] gives the state that typing [v] gives; and typing never
    changes the flags, the score, the level, the lives, or the texts and
    positions of the words. *)
Theorem handleInputChange_last_wins (u v : string) (s : GameState) :
  handleInputChange v (handleInputChange u s) = handleInputChange v s /\
  isPlaying (handleInputChange v s) = isPlaying s /\
  isGameOver (handleInputChange v s) = isGameOver s /\
  score (handleInputChange v s) = score s /\
  level (handleInputChange v s) = level s /\
  lives (handleInputChange v s) = lives s /\
  map (fun w => (id w, text w, x w, y w, speed w)) (words (handleInputChange v s))
  = map (fun w => (id w, text w, x w, y w, speed w)) (words s).
Proof.
  split; [|repeat (split; [reflexivity|])].
  - unfold handleInputChange. simpl. f_equal. rewrite map_map.
    apply map_ext. intros w. unfold highlight.
    destruct (JS.startsWith (JS.toLowerCase (text w)) (JS.toLowerCase u)
              && (0 <? Z.of_nat (String.length u))); reflexivity.
  - simpl. rewrite map_map. apply map_ext. intros w. unfold highlight.
    destruct (_ && _); reflexivity.
Qed.

(** ** Reset *)

(** X16. In a reachable state [resetGame] cannot fail and leads to the
    Idle phase with no word and an empty input; it keeps the score, the
    level and the lives as they are, as well as the recently-used set and
    the time of the last spawn; and after it no animation frame is
    requested. *)
Theorem resetGame_keeps_progress (a : App) :
  reachable a ->
  exists a', step ClickReset a = Some a' /\
    phaseOf (gameState a') = Some Idle /\
    words (gameState a') = [] /\ currentInput (gameState a') = "" /\
    score (gameState a') = score (gameState a) /\
    level (gameState a') = level (gameState a) /\
    lives (gameState a') = lives (gameState a) /\
    recentlyUsedWords a' = recentlyUsedWords a /\
    lastWordSpawnRef a' = lastWordSpawnRef a /\
    frameCallbacks a' = [].
Proof.
  intros Hreach. eexists. split; [reflexivity|].
  set (a' := commit (gameState a) (resetGame a)).
  assert (Hstep : step ClickReset a = Some a') by reflexivity.
  pose proof (step_invariant _ _ _ (reachable_invariant a Hreach) Hstep) as Inv'.
  destruct (commit_refs (gameState a) (resetGame a)) as (Hg & Hl & Hr).
  fold a' in Hg, Hl, Hr. rewrite Hg, Hl, Hr. simpl.
  repeat (split; [reflexivity|]).
  destruct (inv_scheduled a' Inv') as [_ [Hq | (h & _ & _ & _ & Hplay)]];
    [assumption|].
  rewrite Hg in Hplay. discriminate.
Qed.

Lemma resetGame_keeps_progress_witness :
  let a := played (slowGame 3 ++ [InputChange "dog"; KeyPress "Enter"]) in
  exists a', step ClickReset a = Some a' /\
    phaseOf (gameState a') = Some Idle /\
    words (gameState a') = [] /\ currentInput (gameState a') = "" /\
    score (gameState a') = score (gameState a) /\
    level (gameState a') = level (gameState a) /\
    lives (gameState a') = lives (gameState a) /\
    recentlyUsedWords a' = recentlyUsedWords a /\
    lastWordSpawnRef a' = lastWordSpawnRef a /\
    frameCallbacks a' = [].
Proof.
  intros a.
  assert (Hrun : run (slowGame 3 ++ [InputChange "dog"; KeyPress "Enter"])
                     initialApp = Some a) by (vm_compute; reflexivity).
  exact (resetGame_keeps_progress a (played_reachable _ _ Hrun)).
Defined.

(** ** What is drawn *)

Lemma toLowerCase_length s : String.length (JS.toLowerCase s) = String.length s.
Proof. induction s as [|c s IH]; simpl; congruence. Qed.

Lemma toLowerCase_substringFrom n s :
  JS.toLowerCase (substringFrom n s) = substringFrom n (JS.toLowerCase s).
Proof.
  revert s. induction n as [|n IH]; intros s; [reflexivity|].
  destruct s as [|c s]; simpl; [reflexivity | apply IH].
Qed.

Lemma substringFrom_append p rest :
  substringFrom (String.length p) (String.append p rest) = rest.
Proof. induction p as [|c p IH]; simpl; [reflexivity | assumption]. Qed.

Lemma append_length p rest :
  String.length (String.append p rest)
  = (String.length p + String.length rest)%nat.
Proof. induction p as [|c p IH]; simpl; congruence. Qed.

Lemma ciPrefix_split value wordText :
  ciPrefix value wordText ->
  String.append (JS.toLowerCase value)
                (JS.toLowerCase (substringFrom (String.length value) wordText))
  = JS.toLowerCase wordText /\
  (String.length value <= String.length wordText)%nat.
Proof.
  intros [rest Hrest]. split.
  - rewrite toLowerCase_substringFrom, Hrest.
    rewrite <- (toLowerCase_length value), substringFrom_append. reflexivity.
  - rewrite <- (toLowerCase_length wordText), Hrest, append_length,
      toLowerCase_length. lia.
Qed.

(** X17. In every reachable state, the two parts a live word is drawn in,
    its highlighted prefix [matched] and the rest
    [text.substring(matched.length)], make up its text, letter case
    apart, and the highlight is never longer than the text. *)
Theorem shown_parts_make_the_text (a : App) (word : Word) :
  reachable a ->
  In word (words (gameState a)) ->
  String.append (JS.toLowerCase (matched word)) (JS.toLowerCase (shownRest word))
  = JS.toLowerCase (text word) /\
  (String.length (matched word) <= String.length (text word))%nat.
Proof.
  intros Hreach Hin.
  pose proof (shape_words a (reachable_shape a Hreach)) as Hw.
  rewrite Forall_forall in Hw. destruct (Hw word Hin) as (_ & Hp & _).
  now apply ciPrefix_split.
Qed.

Lemma shown_parts_make_the_text_witness :
  let a := played (slowGame 3 ++ [InputChange "Do"]) in
  Forall (fun word =>
            String.append (JS.toLowerCase (matched word))
                          (JS.toLowerCase (shownRest word))
            = JS.toLowerCase (text word))
         (words (gameState a)) /\
  map (fun word => (matched word, shownRest word)) (words (gameState a))
  = [("", "cat"); ("Do", "g"); ("", "run")].
Proof.
  intros a.
  assert (Hrun : run (slowGame 3 ++ [InputChange "Do"]) initialApp = Some a)
    by (vm_compute; reflexivity).
  split; [|vm_compute; reflexivity].
  apply Forall_forall. intros word Hin.
  exact (proj1 (shown_parts_make_the_text a word (played_reachable _ _ Hrun) Hin)).
Defined.

(** ** The phases on the page *)

(** X18. With the controls the page offers, the phase changes in a cycle
    only: from Idle to Playing by the start button, from Playing to
    GameOver by an animation frame, from GameOver to Idle by a reset
    button; every other offered event keeps the phase. *)
Theorem page_phase_cycle (ev : Event) (a a' : App) :
  reachable a ->
  offered (gameState a) ev = true ->
  step ev a = Some a' ->
  phaseOf (gameState a') = phaseOf (gameState a) \/
  (phaseOf (gameState a) = Some Idle /\ phaseOf (gameState a') = Some Playing
   /\ exists now, ev = ClickStart now) \/
  (phaseOf (gameState a) = Some Playing /\ phaseOf (gameState a') = Some GameOver
   /\ isFrame ev) \/
  (phaseOf (gameState a) = Some GameOver /\ phaseOf (gameState a') = Some Idle
   /\ ev = ClickReset).
Proof.
  intros Hreach Hoff Hstep.
  pose proof (reachable_invariant a Hreach) as Inv.
  pose proof (inv_phase a Inv) as Hph. apply phaseOf_defined in Hph.
  destruct ev as [now area d | now | | value | key]; simpl in Hoff.
  - destruct (frame_step_cases _ _ _ _ _ Hstep)
      as [[_ ->] | (h & cb & rest & gs1 & recent1 & last1 & Hq & Hspawn & ->)];
      [now left|].
    destruct (inv_scheduled a Inv) as [_ [Hnil | (h' & _ & _ & _ & Hplay)]];
      [congruence|].
    assert (H1 : isPlaying gs1 = isPlaying (gameState a) /\
                 isGameOver gs1 = isGameOver (gameState a)).
    { destruct Hspawn as [(_ & Hs & _) | (_ & -> & _)]; [|tauto].
      apply spawnWord_fields in Hs. tauto. }
    pose proof (updateWords_fields area gs1) as Hu. simpl in Hu.
    destruct Hu as (_ & _ & _ & Hflags).
    unfold phaseOf. after_commit.
    assert (Hg : gameState
                   (if loopIsPlaying cb
                    then requestFrame cb
                           (mkApp (fst (updateWords area gs1)) last1 recent1
                                  (gameLoopRef a) rest (nextHandle a))
                    else mkApp (fst (updateWords area gs1)) last1 recent1
                               (gameLoopRef a) rest (nextHandle a))
                 = fst (updateWords area gs1))
      by (destruct (loopIsPlaying cb); reflexivity).
    simpl. rewrite Hg.
    destruct Hflags as [(-> & -> & _) | (-> & ->)].
    + right. right. left. rewrite Hplay.
      destruct (isGameOver (gameState a)); [exfalso; auto|]. simpl. auto.
    + left. destruct H1 as [-> ->]. reflexivity.
  - apply andb_true_iff in Hoff as [H1 H2].
    apply negb_true_iff in H1, H2.
    unfold step in Hstep. simpl in Hstep. inversion Hstep; subst a'.
    right. left. unfold phaseOf. after_commit. simpl. rewrite H1, H2. eauto.
  - assert (Hover : isGameOver (gameState a) = true).
    { destruct (isGameOver (gameState a)); [reflexivity|].
      rewrite andb_false_r in Hoff. discriminate. }
    unfold step in Hstep. simpl in Hstep. inversion Hstep; subst a'.
    right. right. right. unfold phaseOf. after_commit. simpl. rewrite Hover.
    destruct (isPlaying (gameState a)); [exfalso; auto|]. auto.
  - unfold step in Hstep. simpl in Hstep. inversion Hstep; subst a'.
    left. unfold phaseOf. after_commit. reflexivity.
  - unfold step in Hstep. simpl in Hstep. inversion Hstep; subst a'.
    left. unfold phaseOf. after_commit. simpl.
    destruct (handleKeyPress_flags key (gameState a) (gameState a))
      as (-> & -> & _).
    reflexivity.
Qed.

Lemma page_phase_cycle_witness :
  let a := played (lostGame 368) in
  let a' := played (lostGame 369) in
  phaseOf (gameState a) = Some Playing /\
  phaseOf (gameState a') = Some GameOver.
Proof.
  intros a a'.
  assert (Hrun : run (lostGame 368) initialApp = Some a)
    by (vm_compute; reflexivity).
  assert (Hstep : step (quickFrame 369) a = Some a')
    by (vm_compute; reflexivity).
  assert (Hp : phaseOf (gameState a) = Some Playing) by (vm_compute; reflexivity).
  assert (Hp' : phaseOf (gameState a') = Some GameOver)
    by (vm_compute; reflexivity).
  destruct (page_phase_cycle (quickFrame 369) a a'
              (played_reachable _ _ Hrun) eq_refl Hstep)
    as [H | [(H & _) | [(H & H' & _) | (H & _)]]].
  - rewrite Hp, Hp' in H. discriminate H.
  - rewrite Hp in H. discriminate H.
  - split; assumption.
  - rewrite Hp in H. discriminate H.
Defined.

(** ** Spawning in time *)

Lemma updateWords_length area prev :
  (List.length (words (fst (updateWords area prev)))
   <= List.length (words prev))%nat.
Proof.
  destruct (updateWords_words area prev) as [-> | [keep ->]]; [lia|].
  rewrite <- (length_map advance (words prev)). apply filter_length_le.
Qed.

Lemma commit_lastWordSpawnRef rendered a :
  lastWordSpawnRef (commit rendered a) = lastWordSpawnRef a.
Proof. exact (proj1 (proj2 (commit_refs rendered a))). Qed.

Lemma frame_step_state_of area (a : App) cb rest gs1 recent1 last1 :
  let a2 := mkApp (fst (updateWords area gs1)) last1 recent1
                  (gameLoopRef a) rest (nextHandle a) in
  let a' := commit (gameState a)
                   (if loopIsPlaying cb then requestFrame cb a2 else a2) in
  gameState a' = fst (updateWords area gs1) /\
  recentlyUsedWords a' = recent1 /\ lastWordSpawnRef a' = last1.
Proof.
  intros a2 a'. subst a'.
  rewrite commit_lastWordSpawnRef. after_commit.
  destruct (loopIsPlaying cb); simpl; auto.
Qed.

(** X19. An animation frame adds at most one word; and a frame that
    comes 500 ms or less after the last spawn adds none, and leaves the
    recently-used set and the time of the last spawn as they are. *)
Theorem no_spawn_within_500ms now area d (a a' : App) :
  step (AnimationFrame now area d) a = Some a' ->
  (List.length (words (gameState a'))
   <= List.length (words (gameState a)) + 1)%nat /\
  (now - lastWordSpawnRef a <= 500 ->
   (List.length (words (gameState a'))
    <= List.length (words (gameState a)))%nat /\
   recentlyUsedWords a' = recentlyUsedWords a /\
   lastWordSpawnRef a' = lastWordSpawnRef a).
Proof.
  intros Hstep.
  destruct (frame_step_cases _ _ _ _ _ Hstep)
    as [[_ ->] | (h & cb & rest & gs1 & recent1 & last1 & _ & Hspawn & ->)];
    [split; [lia | auto]|].
  destruct (frame_step_state_of area a cb rest gs1 recent1 last1)
    as (Hg & Hr & Hl).
  cbv zeta in *. rewrite Hg, Hr, Hl. clear Hg Hr Hl.
  pose proof (updateWords_length area gs1) as Hlen.
  destruct Hspawn as [(Hdue & Hs & ->) | (_ & -> & -> & ->)];
    [|split; [lia | auto]].
  split.
  - apply spawnWord_inv in Hs.
    destruct Hs as [(_ & -> & _) | (ar & wl & wt & _ & _ & _ & _ & _ & ->)];
      [lia|].
    simpl in Hlen. rewrite length_app in Hlen. simpl in Hlen. lia.
  - intros Hsoon. exfalso.
    apply ltb_iff in Hdue.
    assert (Hrate : (500 <= getSpawnRate (loopLevel cb))%Q)
      by (unfold getSpawnRate; apply Q.le_max_r).
    assert (Hle : (inject_Z (now - lastWordSpawnRef a) <= inject_Z 500)%Q)
      by (rewrite <- Zle_Qle; exact Hsoon).
    change (inject_Z 500) with 500%Q in Hle. lra.
Qed.

Lemma no_spawn_within_500ms_witness :
  let a := played (slowGame 3) in
  let a' := played (slowGame 3 ++ [AnimationFrame 6400 (Some playArea)
                                                  (mkDraw "zz" 0 0)]) in
  (List.length (words (gameState a')) <= List.length (words (gameState a)))%nat /\
  recentlyUsedWords a' = recentlyUsedWords a /\
  lastWordSpawnRef a' = lastWordSpawnRef a.
Proof.
  intros a a'.
  assert (Hstep : step (AnimationFrame 6400 (Some playArea) (mkDraw "zz" 0 0)) a
                  = Some a') by (vm_compute; reflexivity).
  apply (proj2 (no_spawn_within_500ms _ _ _ a a' Hstep)).
  vm_compute. discriminate.
Defined.

(** ** Notifications of a tick *)

(** X20. A tick raises one error notification for each word that reaches
    the base line, naming its text, in the order of the words; the
    notification that all lives are lost follows them exactly when a word
    arrived and the lives are not more than the arrivals, and then the
    game is over. *)
Theorem updateWords_notifications (area : Area) (prev : GameState) :
  let n := Z.of_nat (List.length (arrivals area prev)) in
  let over := (0 <? n) && (lives prev <=? n) in
  snd (updateWords (Some area) prev)
  = map (fun word => (error, ReachedBase (text word))) (arrivals area prev)
    ++ (if over then [(error, AllLivesLost)] else []) /\
  (over = true ->
   isGameOver (fst (updateWords (Some area) prev)) = true /\
   isPlaying (fst (updateWords (Some area) prev)) = false) /\
  (over = false ->
   isGameOver (fst (updateWords (Some area) prev)) = isGameOver prev /\
   isPlaying (fst (updateWords (Some area) prev)) = isPlaying prev).
Proof.
  intros n over. subst n over. unfold updateWords, arrivals.
  rewrite (filter_map_advance (atBase (clientHeight area - 100))
             (arrives (clientHeight area - 100)))
    by apply atBase_advance.
  rewrite length_map, map_map. simpl.
  set (arrived := filter (arrives (clientHeight area - 100)) (words prev)).
  destruct (Z.ltb_spec 0 (Z.of_nat (List.length arrived))) as [Hpos|Hzero];
    simpl.
  - replace (Z.max 0 (lives prev - Z.of_nat (List.length arrived)) <=? 0)
      with (lives prev <=? Z.of_nat (List.length arrived)).
    + destruct (lives prev <=? _); simpl; rewrite ?app_nil_r;
        (split; [reflexivity|]); split; intros H; try discriminate; auto.
    + destruct (Z.leb_spec (lives prev) (Z.of_nat (List.length arrived)));
        symmetry; [apply Z.leb_le | apply Z.leb_gt]; lia.
  - rewrite app_nil_r. split; [reflexivity|]. split; intros H;
      [discriminate | auto].
Qed.

Lemma updateWords_notifications_witness :
  let prev := mkGameState true false 0 1 2
                [sample "a1" "cat" 499; sample "a2" "dog" 100;
                 sample "a3" "run" 499] "" in
  snd (updateWords (Some playArea) prev)
  = [(error, ReachedBase "cat"); (error, ReachedBase "run");
     (error, AllLivesLost)] /\
  isGameOver (fst (updateWords (Some playArea) prev)) = true.
Proof.
  intros prev.
  destruct (updateWords_notifications playArea prev) as (H1 & H2 & _).
  split; [exact H1 | exact (proj1 (H2 eq_refl))].
Defined.

(** ** Before the play area is measured *)

(** X21. An animation frame that finds no play area cannot fail and
    leaves the game state and the recently-used set as they are, whatever
    the time; but when the game is played and a spawn is due, the time of
    the last spawn is set to now although no word was spawned. *)
Theorem frame_without_play_area now d (a : App) :
  reachable a ->
  exists a', step (AnimationFrame now None d) a = Some a' /\
    gameState a' = gameState a /\
    recentlyUsedWords a' = recentlyUsedWords a /\
    (isPlaying (gameState a) = true ->
     (getSpawnRate (level (gameState a))
      < inject_Z (now - lastWordSpawnRef a))%Q ->
     lastWordSpawnRef a' = now).
Proof.
  intros Hreach.
  pose proof (reachable_invariant a Hreach) as Inv.
  destruct (inv_scheduled a Inv) as [_ Hp].
  destruct (frameCallbacks a) as [|[h cb] rest] eqn:Hq.
  { exists a. rewrite frame_without_callback by assumption.
    repeat (split; [reflexivity|]).
    intros Hplay. destruct (shape_loop a (reachable_shape a Hreach) Hplay).
    congruence. }
  destruct Hp as [Hnil | (h' & Hq' & _)]; [congruence|].
  rewrite Hq in Hq'. inversion Hq'; subst h' cb rest. clear Hq'.
  unfold step. simpl handle. rewrite Hq. unfold gameLoop. simpl.
  destruct (JS.ltb _ _) eqn:Hdue; simpl; eexists; (split; [reflexivity|]);
    rewrite commit_lastWordSpawnRef; after_commit; simpl;
    repeat (split; [reflexivity|]); intros _ Hlt; [reflexivity|].
  apply ltb_iff in Hlt. congruence.
Qed.

Lemma frame_without_play_area_witness :
  let a := played (slowGame 3) in
  exists a', step (AnimationFrame 9000 None (mkDraw "zz" 0 0)) a = Some a' /\
    gameState a' = gameState a /\
    recentlyUsedWords a' = recentlyUsedWords a /\
    lastWordSpawnRef a' = 9000.
Proof.
  intros a.
  assert (Hrun : run (slowGame 3) initialApp = Some a)
    by (vm_compute; reflexivity).
  destruct (frame_without_play_area 9000 (mkDraw "zz" 0 0) a
              (played_reachable _ _ Hrun)) as (a' & H1 & H2 & H3 & H4).
  exists a'. repeat (split; [assumption|]).
  apply H4; [vm_compute; reflexivity | vm_compute; reflexivity].
Defined.
